(** * Golan-Concepts: the concurrency toolkit

    A shallow embedding of the mutex-guarded primitives of
    [pkg/concurrency/concurrency-mutexes.go] (SafeCounter, ReadHeavyStruct,
    SafeQueue) and of the channel patterns of the concurrency package
    (generatorWithBoring, fanIn), with the properties the specification
    states about them. *)

From Stdlib Require Import ZArith List Lia Bool DecimalString.
From Stdlib Require DecimalPos DecimalZ.
From stdpp Require Import gmap strings list.

Open Scope Z_scope.

(** ** Go's [int] on a 64-bit platform: two's complement, wrapping. *)

Definition int_max : Z := 2 ^ 63 - 1.
Definition int_min : Z := - 2 ^ 63.

Definition wrap_int (z : Z) : Z := (z + 2 ^ 63) mod 2 ^ 64 - 2 ^ 63.

(** ** Outcomes of a method call

    A call either returns (with the new state of the receiver), panics
    (deferred calls have run by then), or cannot proceed because a lock it
    needs is held by somebody else. *)

Inductive outcome (S A : Type) : Type :=
| Returns (a : A) (s : S)
| Panics (msg : string) (s : S)
| Blocks.

Arguments Returns {S A} a s.
Arguments Panics {S A} msg s.
Arguments Blocks {S A}.

Definition M (S A : Type) : Type := S -> outcome S A.

Definition ret {S A} (a : A) : M S A := fun s => Returns a s.

Definition bind {S A B} (m : M S A) (k : A -> M S B) : M S B :=
  fun s =>
    match m s with
    | Returns a s' => k a s'
    | Panics msg s' => Panics msg s'
    | Blocks => Blocks
    end.

(** [defer d body]: Go's [defer]: [d] runs when [body] leaves, by a return
    or by a panic alike. *)
Definition defer {S A} (d : S -> S) (body : M S A) : M S A :=
  fun s =>
    match body s with
    | Returns a s' => Returns a (d s')
    | Panics msg s' => Panics msg (d s')
    | Blocks => Blocks
    end.

Definition modify {S} (f : S -> S) : M S unit := fun s => Returns tt (f s).
Definition gets {S A} (f : S -> A) : M S A := fun s => Returns (f s) s.
Definition panic {S A} (msg : string) : M S A := fun s => Panics msg s.

Notation "x <- m ;; k" := (bind m (fun x => k))
  (at level 100, m at next level, right associativity).
Notation "m ;;; k" := (bind m (fun _ => k))
  (at level 100, right associativity).

(** The state an outcome leaves behind, and the value it returns. *)
Definition state_after {S A} (o : outcome S A) : option S :=
  match o with
  | Returns _ s => Some s
  | Panics _ s => Some s
  | Blocks => None
  end.

Definition returned {S A} (o : outcome S A) : option A :=
  match o with
  | Returns a _ => Some a
  | _ => None
  end.

(** ** sync.Mutex and sync.RWMutex *)

(** A [sync.Mutex] is held or free; its zero value is free. *)
Definition Mutex : Type := bool.

(** A [sync.RWMutex] by who holds it: one writer, or any number of
    readers. A Lock call that waits is not recorded here, and Go makes
    RLock wait behind such a call too; so [rw_rlockable] is RLock's rule for
    a lock no writer is waiting for, and the properties of Read below are
    stated on locks nobody holds, where nobody can be waiting. *)
Record RWMutex : Type := mkRW { writer : bool; readers : nat }.

Definition rw_zero : RWMutex := mkRW false 0.

Definition rw_lockable (m : RWMutex) : bool := negb (writer m) && (readers m =? 0)%nat.
Definition rw_rlockable (m : RWMutex) : bool := negb (writer m).

(** ** SafeQueue *)

Module SafeQueue.

Record t : Type := mk { mu : Mutex; queue : list Z }.

(** [SafeQueue{}] *)
Definition zero : t := mk false [].

Definition Lock : M t unit :=
  fun sq => if mu sq then Blocks else Returns tt (mk true (queue sq)).
Definition Unlock (sq : t) : t := mk false (queue sq).

(** [sq.queue = append(sq.queue, item)] *)
Definition Enqueue (item : Z) : M t unit :=
  Lock ;;;
  defer Unlock
    (modify (fun sq => mk (mu sq) (queue sq ++ [item]))).

(** [if len(sq.queue) == 0 { return 0, false }]
    [item := sq.queue[0]; sq.queue = sq.queue[1:]; return item, true] *)
Definition Dequeue : M t (Z * bool) :=
  Lock ;;;
  defer Unlock
    (q <- gets queue ;;
     match q with
     | [] => ret (0, false)
     | item :: rest =>
         modify (fun sq => mk (mu sq) rest) ;;;
         ret (item, true)
     end).

(** The calls a producer and a consumer make, in the order the lock
    grants them. *)
Inductive op : Type :=
| Enq (item : Z)
| Deq.

(** Runs a sequence of calls; collects what the successful Dequeues
    returned, in order. [None] when a call could not take the lock. *)
Fixpoint run (ops : list op) (sq : t) : option (list Z * t) :=
  match ops with
  | [] => Some ([], sq)
  | Enq item :: ops' =>
      match Enqueue item sq with
      | Returns _ sq' => run ops' sq'
      | _ => None
      end
  | Deq :: ops' =>
      match Dequeue sq with
      | Returns (item, ok) sq' =>
          match run ops' sq' with
          | Some (got, sq'') => Some (if ok then item :: got else got, sq'')
          | None => None
          end
      | _ => None
      end
  end.

(** The items a sequence of calls enqueues. *)
Definition enqueued (ops : list op) : list Z :=
  flat_map (fun o => match o with Enq item => [item] | Deq => [] end) ops.

(** [producer(sq, wg, items)] *)
Definition producer (items : list Z) : list op := map Enq items.

(** [consumer(sq, wg)]: dequeue until the queue reports empty. The fuel
    bounds the number of iterations. *)
Fixpoint consumer (fuel : nat) (sq : t) : option (list Z * t) :=
  match fuel with
  | O => None
  | S fuel' =>
      match Dequeue sq with
      | Returns (item, true) sq' =>
          match consumer fuel' sq' with
          | Some (got, sq'') => Some (item :: got, sq'')
          | None => None
          end
      | Returns (_, false) sq' => Some ([], sq')
      | _ => None
      end
  end.

End SafeQueue.

(** ** ReadHeavyStruct, the keyed store *)

Module ReadHeavyStruct.

(** [data] is [None] for the nil map of a zero-value struct. *)
Record t : Type := mk { mu : RWMutex; data : option (gmap string string) }.

(** [ReadHeavyStruct{}] *)
Definition zero : t := mk rw_zero None.

(** [ReadHeavyStruct{data: make(map[string]string)}] *)
Definition make : t := mk rw_zero (Some ∅).

Definition RLock : M t unit :=
  fun r => if rw_rlockable (mu r)
           then Returns tt (mk (mkRW false (S (readers (mu r)))) (data r))
           else Blocks.
Definition RUnlock (r : t) : t :=
  mk (mkRW (writer (mu r)) (Nat.pred (readers (mu r)))) (data r).

Definition Lock : M t unit :=
  fun r => if rw_lockable (mu r)
           then Returns tt (mk (mkRW true (readers (mu r))) (data r))
           else Blocks.
Definition Unlock (r : t) : t :=
  mk (mkRW false (readers (mu r))) (data r).

(** What a map holds under a key; a nil map holds nothing. *)
Definition stored (m : option (gmap string string)) (key : string)
  : option string :=
  match m with
  | None => None
  | Some m => m !! key
  end.

(** [val, exists := m[key]]: the zero value and [false] for a key that is
    not there; reading a nil map is allowed. *)
Definition map_index (m : option (gmap string string)) (key : string)
  : string * bool :=
  match stored m key with
  | Some val => (val, true)
  | None => (EmptyString, false)
  end.

(** [m[key] = value]: panics on a nil map. *)
Definition map_assign (key value : string) : M t unit :=
  d <- gets data ;;
  match d with
  | None => panic "assignment to entry in nil map"
  | Some m => modify (fun r => mk (mu r) (Some (<[key := value]> m)))
  end.

Definition Read (key : string) : M t (string * bool) :=
  RLock ;;;
  defer RUnlock
    (d <- gets data ;;
     ret (map_index d key)).

Definition Write (key value : string) : M t unit :=
  Lock ;;;
  defer Unlock
    (map_assign key value).

End ReadHeavyStruct.

(** ** SafeCounter *)

Module SafeCounter.

Record t : Type := mk { mu : Mutex; value : Z }.

(** [SafeCounter{}] *)
Definition zero : t := mk false 0.

Definition Lock : M t unit :=
  fun c => if mu c then Blocks else Returns tt (mk true (value c)).
Definition Unlock (c : t) : t := mk false (value c).

(** [c.value++] *)
Definition Increment : M t unit :=
  Lock ;;;
  defer Unlock
    (modify (fun c => mk (mu c) (wrap_int (value c + 1)))).

(** [return c.value] *)
Definition Value : M t Z :=
  Lock ;;;
  defer Unlock
    (gets value).

End SafeCounter.

(** ** Goroutines incrementing one SafeCounter

    [TestMutex] starts N goroutines, each running
    [for j := 0; j < M; j++ { safeCounter.Increment() }], waits for all of
    them and then prints [safeCounter.Value()]. A goroutine is interrupted
    between any two of the four things [Increment] does: take the lock, read
    [c.value], write [c.value], release the lock. *)

Module Workers.

Inductive pc : Type :=
| AtLock                (* before [c.mu.Lock()], or past the loop *)
| AtLoad                (* lock taken, [c.value] not yet read *)
| AtStore (v : Z)       (* [c.value] read as [v], not yet written *)
| AtUnlock.             (* written; the deferred [c.mu.Unlock()] is next *)

Record goroutine : Type := mkG { at_pc : pc; j : nat }.

Record state : Type :=
  mkSt { counter : SafeCounter.t; goroutines : list goroutine }.

(** The state when the N goroutines have been started. *)
Definition init (N : nat) : state :=
  mkSt SafeCounter.zero (replicate N (mkG AtLock 0)).

Definition in_critical (g : goroutine) : bool :=
  match at_pc g with AtLock => false | _ => true end.

(** One step of goroutine [i]. A goroutine that waits for the lock, or
    that has left its loop, or that does not exist, leaves the state as it
    is. *)
Definition step (M : nat) (i : nat) (st : state) : state :=
  let c := counter st in
  match goroutines st !! i with
  | None => st
  | Some g =>
      match at_pc g with
      | AtLock =>
          if (j g <? M)%nat then
            if SafeCounter.mu c then st
            else mkSt (SafeCounter.mk true (SafeCounter.value c))
                      (<[i := mkG AtLoad (j g)]> (goroutines st))
          else st
      | AtLoad =>
          mkSt c (<[i := mkG (AtStore (SafeCounter.value c)) (j g)]> (goroutines st))
      | AtStore v =>
          mkSt (SafeCounter.mk (SafeCounter.mu c) (wrap_int (v + 1)))
               (<[i := mkG AtUnlock (j g)]> (goroutines st))
      | AtUnlock =>
          mkSt (SafeCounter.mk false (SafeCounter.value c))
               (<[i := mkG AtLock (S (j g))]> (goroutines st))
      end
  end.

(** A schedule names the goroutine that moves next. *)
Definition exec (M : nat) (sched : list nat) (st : state) : state :=
  fold_left (fun st i => step M i st) sched st.

(** [wg.Wait()] returns: every goroutine has left its loop. *)
Definition finished (M : nat) (st : state) : bool :=
  forallb (fun g => negb (in_critical g) && (j g =? M)%nat) (goroutines st).

(** The writes of [c.value] a goroutine has made: one for each call it
    has finished, and one more when it stands between the write and the
    unlock. *)
Definition written (g : goroutine) : Z :=
  Z.of_nat (j g) + match at_pc g with AtUnlock => 1 | _ => 0 end.

Definition total (gs : list goroutine) : Z :=
  foldr (fun g acc => written g + acc) 0 gs.

(** How many goroutines are between Lock and Unlock. *)
Definition holders (gs : list goroutine) : nat :=
  foldr (fun g acc => (if in_critical g then 1 else 0) + acc)%nat 0%nat gs.

(** The steps a goroutine still has to make. *)
Definition todo (M : nat) (g : goroutine) : nat :=
  (4 * (M - j g) -
   match at_pc g with AtLock => 0 | AtLoad => 1 | AtStore _ => 2 | AtUnlock => 3 end)%nat.

Definition todo_all (M : nat) (gs : list goroutine) : nat :=
  foldr (fun g acc => todo M g + acc)%nat 0%nat gs.

(** A goroutine is where the lock and the counter say it can be. *)
Definition consistent (M : nat) (c : SafeCounter.t) (g : goroutine) : Prop :=
  (j g <= M)%nat /\
  (in_critical g = true -> (j g < M)%nat) /\
  (forall v, at_pc g = AtStore v -> v = SafeCounter.value c).

(** The invariant of the protected counter: its value is the number of
    writes made, at most one goroutine is between Lock and Unlock, and it is
    there exactly when the lock is held. *)
Definition invariant (M : nat) (st : state) : Prop :=
  SafeCounter.value (counter st) = wrap_int (total (goroutines st)) /\
  holders (goroutines st) = (if SafeCounter.mu (counter st) then 1 else 0)%nat /\
  Forall (consistent M (counter st)) (goroutines st).

(** The counter the unprotected worker uses, [counter++] without a lock:
    the same goroutines, with no lock taken or released. *)
Definition step_unprotected (M : nat) (i : nat) (st : state) : state :=
  let c := counter st in
  match goroutines st !! i with
  | None => st
  | Some g =>
      match at_pc g with
      | AtLock =>
          if (j g <? M)%nat
          then mkSt c (<[i := mkG (AtStore (SafeCounter.value c)) (j g)]> (goroutines st))
          else st
      | AtStore v =>
          mkSt (SafeCounter.mk (SafeCounter.mu c) (wrap_int (v + 1)))
               (<[i := mkG AtLock (S (j g))]> (goroutines st))
      | _ => st
      end
  end.

End Workers.

(** ** generatorWithBoring *)

(** [fmt.Sprintf("%s %d", msg, i)] *)
Definition Sprintf_s_d (msg : string) (i : Z) : string :=
  msg +:+ " " +:+ NilZero.string_of_int (Z.to_int i).

(** The label followed by the decimal form of a sequence number. *)
Definition numbered (msg : string) (i : nat) : string :=
  msg +:+ " " +:+ NilZero.string_of_int (Z.to_int (Z.of_nat i)).

(** [time.Duration] is an int64 count of nanoseconds. *)
Definition Millisecond : Z := 1000000.

Section Generator.

(** The state of the math/rand source, and [rand.Intn] on it. *)
Variable rng : Type.
Variable rand_Intn : Z -> rng -> Z * rng.

(** The loop variable and the random source, at the top of the loop
    body. *)
Record gen_state : Type := mkGen { gen_i : Z; gen_rng : rng }.

(** One turn of [for i := 0; ; i++]: the message sent on [c], the
    duration slept, and the state at the next turn. *)
Definition iteration (msg : string) (st : gen_state)
  : (string * Z) * gen_state :=
  let sent := Sprintf_s_d msg (gen_i st) in
  let (n, r') := rand_Intn 1000 (gen_rng st) in
  let slept := wrap_int (Millisecond * n) in
  ((sent, slept), mkGen (wrap_int (gen_i st + 1)) r').

(** The first [k] turns. *)
Fixpoint turns (msg : string) (k : nat) (st : gen_state)
  : list (string * Z) :=
  match k with
  | O => []
  | S k' =>
      let (ev, st') := iteration msg st in
      ev :: turns msg k' st'
  end.

(** [generatorWithBoring(msg)]: the goroutine starts with [i := 0]. *)
Definition generatorWithBoring (msg : string) (seed : rng) (k : nat)
  : list (string * Z) :=
  turns msg k (mkGen 0 seed).

Definition messages (msg : string) (seed : rng) (k : nat) : list string :=
  map fst (generatorWithBoring msg seed k).

Definition delays (msg : string) (seed : rng) (k : nat) : list Z :=
  map snd (generatorWithBoring msg seed k).

End Generator.

Arguments mkGen {rng} _ _.
Arguments gen_i {rng} _.
Arguments gen_rng {rng} _.

(** A linear congruential source, to run the generator on. *)
Definition lcg_Intn (n : Z) (s : Z) : Z * Z :=
  (s mod n, (s * 6364136223846793005 + 1442695040888963407) mod 2 ^ 64).

(** ** fanIn *)

Module FanIn.

(** A [<-chan string] as the receiving side meets it: what its sender
    will still send, in order, and whether the sender closes the channel
    after the last message. *)
Record input : Type := mkIn { pending : list string; closes : bool }.

(** A sender that leaves its channel open. *)
Definition silent_after (l : list string) : input := mkIn l false.
(** A sender that calls [close] after its last message. *)
Definition closed_after (l : list string) : input := mkIn l true.

(** [<-input]: the next message; on a closed and drained channel the zero
    value, at once; [None] when the receive has to wait. *)
Definition recv (inp : input) : option (string * input) :=
  match pending inp with
  | m :: rest => Some (m, mkIn rest (closes inp))
  | [] => if closes inp then Some (EmptyString, inp) else None
  end.

(** The two goroutines of [fanIn]. *)
Inductive forwarder : Type := F1 | F2.

(** Inside [for { c <- <-input }] a goroutine either waits to receive
    from its input ([None]) or holds the value it received and waits to
    send it on [c]. [out] is what the reader of [c] has received. *)
Record state : Type := mkSt {
  input1 : input;
  input2 : input;
  holds1 : option string;
  holds2 : option string;
  out : list string
}.

(** [fanIn(input1, input2)]: [c] is made, both goroutines are started,
    [c] is returned. *)
Definition fanIn (input1 input2 : input) : state :=
  mkSt input1 input2 None None [].

(** A call [fanIn(args...)] compiles only with two arguments: the
    signature is [func fanIn(input1, input2 <-chan string) <-chan string]. *)
Definition call_fanIn (args : list input) : option state :=
  match args with
  | [a; b] => Some (fanIn a b)
  | _ => None
  end.

(** One step of a goroutine; the reader of [c] is always ready to
    receive. A goroutine whose receive has to wait leaves the state as it
    is. *)
Definition step (f : forwarder) (st : state) : state :=
  match f with
  | F1 =>
      match holds1 st with
      | None =>
          match recv (input1 st) with
          | Some (m, inp) => mkSt inp (input2 st) (Some m) (holds2 st) (out st)
          | None => st
          end
      | Some m => mkSt (input1 st) (input2 st) None (holds2 st) (out st ++ [m])
      end
  | F2 =>
      match holds2 st with
      | None =>
          match recv (input2 st) with
          | Some (m, inp) => mkSt (input1 st) inp (holds1 st) (Some m) (out st)
          | None => st
          end
      | Some m => mkSt (input1 st) (input2 st) (holds1 st) None (out st ++ [m])
      end
  end.

Definition exec (sched : list forwarder) (st : state) : state :=
  fold_left (fun st f => step f st) sched st.

(** What the reader of [c] has received after a schedule. *)
Definition merged (in1 in2 : input) (sched : list forwarder) : list string :=
  out (exec sched (fanIn in1 in2)).


(** [l] interleaves [l1] and [l2]: every element of either, each list in
    its own order. *)
Inductive Merge {A : Type} : list A -> list A -> list A -> Prop :=
| Merge_nil : Merge [] [] []
| Merge_left x l1 l2 l : Merge l1 l2 l -> Merge (x :: l1) l2 (x :: l)
| Merge_right x l1 l2 l : Merge l1 l2 l -> Merge l1 (x :: l2) (x :: l).

Definition holding (h : option string) : list string :=
  match h with Some m => [m] | None => [] end.


(** On inputs that stay open: what has come out interleaves what the two
    goroutines have forwarded, and what a goroutine has forwarded, holds
    and has still to receive is what its source sends. *)
Definition invariant (l1 l2 : list string) (st : state) : Prop :=
  exists a1 a2,
    Merge a1 a2 (out st) /\
    l1 = a1 ++ holding (holds1 st) ++ pending (input1 st) /\
    l2 = a2 ++ holding (holds2 st) ++ pending (input2 st) /\
    closes (input1 st) = false /\
    closes (input2 st) = false.

End FanIn.

(** ** More of the mutex demonstrations *)

(** [for i := 0; i < n; i++ { m() }] on one receiver: the calls one after
    the other; a call that panics or waits ends the loop. *)
Fixpoint times {S} (n : nat) (m : M S unit) : M S unit :=
  match n with
  | O => ret tt
  | S n' => m ;;; times n' m
  end.

(** A call leaves the lock as it found it, whenever it leaves at all. *)
Definition lock_kept {S L A} (lock : S -> L) (m : M S A) (s : S) : Prop :=
  match state_after (m s) with
  | Some s' => lock s' = lock s
  | None => True
  end.

(** The increments the goroutines have completed: the turns of their
    loops that are over. *)
Definition increments_done (gs : list Workers.goroutine) : Z :=
  foldr (fun g acc => Z.of_nat (Workers.j g) + acc) 0 gs.

(** The goroutines of [workerWithoutMutex]: [counter++] with no lock, a
    read and a write of the shared variable. *)
Module Unprotected.

Definition exec (M : nat) (sched : list nat) (st : Workers.state) : Workers.state :=
  fold_left (fun st i => Workers.step_unprotected M i st) sched st.

(** The steps a goroutine still has to make. *)
Definition todo (M : nat) (g : Workers.goroutine) : nat :=
  (2 * (M - Workers.j g) -
   match Workers.at_pc g with Workers.AtStore _ => 1 | _ => 0 end)%nat.

Definition todo_all (M : nat) (gs : list Workers.goroutine) : nat :=
  foldr (fun g acc => todo M g + acc)%nat 0%nat gs.

(** A goroutine between its read and its write has read a value [v]
    that, with the [slack] increments known to be lost, is at most the
    number [done] of increments completed. *)
Definition ok (M : nat) (slack done : Z) (g : Workers.goroutine) : Prop :=
  (Workers.j g <= M)%nat /\
  match Workers.at_pc g with
  | Workers.AtLock => True
  | Workers.AtStore v => (Workers.j g < M)%nat /\ 0 <= v /\ v + slack <= done
  | _ => False
  end.

(** The shared variable lags at least [slack] behind the increments
    completed, and so does what any goroutine has read. *)
Definition sound (M : nat) (slack : Z) (st : Workers.state) : Prop :=
  0 <= SafeCounter.value (Workers.counter st) /\
  SafeCounter.value (Workers.counter st) + slack
  <= increments_done (Workers.goroutines st) /\
  Forall (ok M slack (increments_done (Workers.goroutines st))) (Workers.goroutines st).

End Unprotected.

(** [atomicWorker]: [for i := 0; i < M; i++ { atomic.AddInt64(&atomicCounter, 1) }],
    run by N goroutines. *)
Module AtomicCounter.

(** [atomic.AddInt64(addr, delta)]: one indivisible read-add-write. *)
Definition AddInt64 (v delta : Z) : Z := wrap_int (v + delta).

(** The shared [atomicCounter] and the loop index of each goroutine. *)
Record state : Type := mkSt { atomicCounter : Z; workers : list nat }.

Definition init (N : nat) : state := mkSt 0 (replicate N 0%nat).

Definition step (M : nat) (i : nat) (st : state) : state :=
  match workers st !! i with
  | None => st
  | Some k =>
      if (k <? M)%nat
      then mkSt (AddInt64 (atomicCounter st) 1) (<[i := S k]> (workers st))
      else st
  end.

Definition exec (M : nat) (sched : list nat) (st : state) : state :=
  fold_left (fun st i => step M i st) sched st.

(** [wg.Wait()] returns. *)
Definition finished (M : nat) (st : state) : bool :=
  forallb (fun k => (k =? M)%nat) (workers st).


Definition todo_all (M : nat) (ws : list nat) : nat :=
  foldr (fun k acc => (M - k) + acc)%nat 0%nat ws.

End AtomicCounter.

(** [deadlockExample], [properLockingExample], [TestDeadlockPrevention]:
    goroutines that each take one mutex once and release it. *)
Module LockDemo.

Inductive pc : Type :=
| Waiting        (* before [mu.Lock()] *)
| Holding        (* between [mu.Lock()] and [mu.Unlock()] *)
| Done.          (* past [mu.Unlock()]; [wg.Done()] has run *)

Record state : Type := mkSt { mu : Mutex; goroutines : list pc }.

Definition step (i : nat) (st : state) : state :=
  match goroutines st !! i with
  | None => st
  | Some Waiting =>
      if mu st then st else mkSt true (<[i := Holding]> (goroutines st))
  | Some Holding => mkSt false (<[i := Done]> (goroutines st))
  | Some Done => st
  end.

Definition exec (sched : list nat) (st : state) : state :=
  fold_left (fun st i => step i st) sched st.

(** [deadlockExample]: main has locked [mu] and never unlocks it; one
    goroutine is started. *)
Definition deadlockExample : state := mkSt true [Waiting].

(** [properLockingExample]: [mu] is free; [n] goroutines are started (two
    in the source). *)
Definition properLocking (n : nat) : state := mkSt false (replicate n Waiting).

(** [wg.Wait()] returns. *)
Definition wait_returns (st : state) : bool :=
  forallb (fun p => match p with Done => true | _ => false end) (goroutines st).

Definition holding (gs : list pc) : nat :=
  foldr (fun p acc => (match p with Holding => 1 | _ => 0 end) + acc)%nat 0%nat gs.

Definition todo_all (gs : list pc) : nat :=
  foldr (fun p acc => (match p with Waiting => 2 | Holding => 1 | Done => 0 end) + acc)%nat
        0%nat gs.

End LockDemo.

(** [TestSafeQueue]: [producer] and [consumer] run as two goroutines on
    one queue. *)
Module QueueDemo.

Inductive who : Type := Producer | Consumer.

(** The queue, the items the producer has still to enqueue, whether the
    consumer is still in its loop, and what it has printed as consumed. *)
Record state : Type := mkSt {
  sq : SafeQueue.t;
  to_produce : list Z;
  consuming : bool;
  consumed : list Z
}.

(** [TestSafeQueue], with [items] for [[]int{1, 2, 3, 4, 5}]. *)
Definition TestSafeQueue (items : list Z) : state :=
  mkSt SafeQueue.zero items true [].

(** One pass of the loop of the goroutine that moves. *)
Definition step (w : who) (st : state) : state :=
  match w with
  | Producer =>
      match to_produce st with
      | [] => st
      | item :: rest =>
          match SafeQueue.Enqueue item (sq st) with
          | Returns _ sq' => mkSt sq' rest (consuming st) (consumed st)
          | _ => st
          end
      end
  | Consumer =>
      if consuming st then
        match SafeQueue.Dequeue (sq st) with
        | Returns (item, true) sq' =>
            mkSt sq' (to_produce st) true (consumed st ++ [item])
        | Returns (_, false) sq' =>
            mkSt sq' (to_produce st) false (consumed st)
        | _ => st
        end
      else st
  end.

Definition exec (sched : list who) (st : state) : state :=
  fold_left (fun st w => step w st) sched st.

(** [wg.Wait()] returns: the producer is through its items and the
    consumer has left its loop. *)
Definition completed (st : state) : bool :=
  match to_produce st with [] => negb (consuming st) | _ => false end.

End QueueDemo.

(** [TestRWMutex]: Read and Write calls on one store, in the order the
    lock grants them. *)
Module StoreTrace.

Inductive call : Type :=
| R (key : string)
| W (key value : string).

(** The results of the Reads, in order; [None] when a call panics or
    waits. *)
Fixpoint run (calls : list call) (r : ReadHeavyStruct.t)
  : option (list (string * bool)) :=
  match calls with
  | [] => Some []
  | R key :: rest =>
      match ReadHeavyStruct.Read key r with
      | Returns res r' => option_map (cons res) (run rest r')
      | _ => None
      end
  | W key value :: rest =>
      match ReadHeavyStruct.Write key value r with
      | Returns _ r' => run rest r'
      | _ => None
      end
  end.

(** The value of the latest Write to [key] among [past], if there is
    one. *)
Fixpoint last_write (key : string) (past : list call) : option string :=
  match past with
  | [] => None
  | c :: rest =>
      match last_write key rest with
      | Some v => Some v
      | None =>
          match c with
          | W k v => if String.eqb k key then Some v else None
          | R _ => None
          end
      end
  end.

(** What the Reads among [calls] are to return, [past] being the calls
    made before. *)
Fixpoint expected (past calls : list call) : list (string * bool) :=
  match calls with
  | [] => []
  | R key :: rest =>
      match last_write key past with
      | Some v => (v, true)
      | None => (EmptyString, false)
      end :: expected (past ++ [R key]) rest
  | W key value :: rest => expected (past ++ [W key value]) rest
  end.

End StoreTrace.

(** * Properties *)

(** ** The wrapping of [int] *)

Lemma wrap_int_small z : int_min <= z <= int_max -> wrap_int z = z.
Proof.
  unfold wrap_int, int_min, int_max. intros H.
  rewrite Z.mod_small; lia.
Qed.

Lemma wrap_int_succ z : wrap_int (wrap_int z + 1) = wrap_int (z + 1).
Proof.
  unfold wrap_int.
  replace ((z + 2 ^ 63) mod 2 ^ 64 - 2 ^ 63 + 1 + 2 ^ 63)
    with ((z + 2 ^ 63) mod 2 ^ 64 + 1) by lia.
  replace (z + 1 + 2 ^ 63) with ((z + 2 ^ 63) + 1) by lia.
  rewrite Zplus_mod_idemp_l. reflexivity.
Qed.

(** ** SafeQueue *)

Section SafeQueue_facts.
Import SafeQueue.

Lemma Enqueue_free item q :
  Enqueue item (mk false q) = Returns tt (mk false (q ++ [item])).
Proof. reflexivity. Qed.

Lemma Dequeue_free_nil :
  Dequeue (mk false []) = Returns (0, false) (mk false []).
Proof. reflexivity. Qed.

Lemma Dequeue_free_cons item q :
  Dequeue (mk false (item :: q)) = Returns (item, true) (mk false q).
Proof. reflexivity. Qed.

Lemma Enqueue_held item q : Enqueue item (mk true q) = Blocks.
Proof. reflexivity. Qed.

Lemma Dequeue_held q : Dequeue (mk true q) = Blocks.
Proof. reflexivity. Qed.

(** A producer that runs to its end before the consumer starts. *)
Lemma run_producer items : forall q,
  run (producer items) (mk false q) = Some ([], mk false (q ++ items)).
Proof.
  induction items as [|x items IH]; intros q; simpl.
  - by rewrite app_nil_r.
  - change (run (producer items) (mk false (q ++ [x]))
            = Some ([], mk false (q ++ x :: items))).
    rewrite IH. by rewrite <- app_assoc.
Qed.

(** The consumer drains a free queue, in order, and stops. *)
Lemma consumer_drains q :
  consumer (S (length q)) (mk false q) = Some (q, mk false []).
Proof.
  induction q as [|x q IH]; [reflexivity|].
  change (match consumer (S (length q)) (mk false q) with
          | Some (got, sq'') => Some (x :: got, sq'')
          | None => None end = Some (x :: q, mk false [])).
  by rewrite IH.
Qed.

End SafeQueue_facts.

(** C2. SafeQueue is first in, first out. Enqueue puts the item at the tail
    of the stored sequence and Dequeue takes the head off and returns it.
    So, in whatever order the lock grants the calls of a producer and of a
    consumer, the values dequeued so far followed by the values still
    stored are the values enqueued, in their order; a consumer that runs
    after the producer of [items] gets exactly [items]; and for the items
    1,2,3,4,5 the dequeued values are 1,2,3,4,5, also when the calls
    alternate. *)
Theorem SafeQueue_fifo :
  (forall item q,
      SafeQueue.Enqueue item (SafeQueue.mk false q)
      = Returns tt (SafeQueue.mk false (q ++ [item]))) /\
  (forall item q,
      SafeQueue.Dequeue (SafeQueue.mk false (item :: q))
      = Returns (item, true) (SafeQueue.mk false q)) /\
  (forall ops q, exists got q',
      SafeQueue.run ops (SafeQueue.mk false q) = Some (got, SafeQueue.mk false q') /\
      got ++ q' = q ++ SafeQueue.enqueued ops) /\
  (forall items, exists sq,
      SafeQueue.run (SafeQueue.producer items) SafeQueue.zero = Some ([], sq) /\
      SafeQueue.consumer (S (length items)) sq = Some (items, SafeQueue.zero)) /\
  SafeQueue.run
    (SafeQueue.producer [1; 2; 3; 4; 5] ++ repeat SafeQueue.Deq 5)
    SafeQueue.zero = Some ([1; 2; 3; 4; 5], SafeQueue.zero) /\
  SafeQueue.run
    (let (e, d) := (SafeQueue.Enq, SafeQueue.Deq) in
     [e 1; d; e 2; e 3; d; d; e 4; e 5; d; d])
    SafeQueue.zero = Some ([1; 2; 3; 4; 5], SafeQueue.zero).
Proof.
  split; [exact Enqueue_free|]. split; [exact Dequeue_free_cons|].
  split; [|split; [|split; reflexivity]].
  - intros ops. induction ops as [|o ops IH]; intros q.
    + exists [], q. split; [reflexivity|]. simpl. by rewrite app_nil_r.
    + destruct o as [item|].
      * destruct (IH (q ++ [item])) as (got & q' & Hrun & Heq).
        exists got, q'. split; [exact Hrun|].
        rewrite Heq. simpl. by rewrite <- app_assoc.
      * destruct q as [|x q].
        -- destruct (IH []) as (got & q' & Hrun & Heq).
           exists got, q'. split; [|exact Heq].
           change (match SafeQueue.run ops (SafeQueue.mk false []) with
                   | Some (got, sq'') => Some (got, sq'')
                   | None => None end = Some (got, SafeQueue.mk false q')).
           by rewrite Hrun.
        -- destruct (IH q) as (got & q' & Hrun & Heq).
           exists (x :: got), q'. split; [|simpl; by rewrite Heq].
           change (match SafeQueue.run ops (SafeQueue.mk false q) with
                   | Some (got, sq'') => Some (x :: got, sq'')
                   | None => None end = Some (x :: got, SafeQueue.mk false q')).
           by rewrite Hrun.
  - intros items. exists (SafeQueue.mk false items). split.
    + apply (run_producer items []).
    + apply consumer_drains.
Qed.

(** ** ReadHeavyStruct *)

Section ReadHeavyStruct_facts.
Import ReadHeavyStruct.

(** On a store nobody holds Read goes through, and leaves the store as
    it found it. *)
Lemma Read_idle d key :
  Read key (mk rw_zero d) = Returns (map_index d key) (mk rw_zero d).
Proof. reflexivity. Qed.

Lemma Read_write_held n d key : Read key (mk (mkRW true n) d) = Blocks.
Proof. reflexivity. Qed.

Lemma Write_idle_map m key value :
  Write key value (mk rw_zero (Some m))
  = Returns tt (mk rw_zero (Some (<[key := value]> m))).
Proof. reflexivity. Qed.

Lemma Write_idle_nil key value :
  Write key value (mk rw_zero None)
  = Panics "assignment to entry in nil map" (mk rw_zero None).
Proof. reflexivity. Qed.

Lemma Write_busy w n d key value :
  rw_lockable (mkRW w n) = false -> Write key value (mk (mkRW w n) d) = Blocks.
Proof. intros H. unfold Write, bind, Lock. simpl. by rewrite H. Qed.

(** The cases of a Write: on an idle store it returns or panics, on a
    store somebody holds it waits. *)
Lemma Write_cases key value r :
  (exists m, r = mk rw_zero (Some m)
             /\ Write key value r = Returns tt (mk rw_zero (Some (<[key := value]> m)))) \/
  (r = mk rw_zero None
   /\ Write key value r = Panics "assignment to entry in nil map" r) \/
  Write key value r = Blocks.
Proof.
  destruct r as [[w n] d].
  destruct (rw_lockable (mkRW w n)) eqn:E.
  - unfold rw_lockable in E. simpl in E.
    apply andb_true_iff in E as [Hw Hn].
    apply negb_true_iff in Hw. apply Nat.eqb_eq in Hn. subst.
    destruct d as [m|].
    + left. exists m. split; reflexivity.
    + right. left. split; reflexivity.
  - right. right. by apply Write_busy.
Qed.

End ReadHeavyStruct_facts.

(** C3. Absence is a flag, not an error. Dequeue on an empty SafeQueue
    whose lock is free (a freshly constructed one) returns (0, false): it
    neither waits nor panics, and the queue is as it was. Read of a key the
    store does not hold, on a store whose lock nobody holds, returns the
    empty string and found = false: it neither waits nor panics, also on a
    nil map, and leaves the store as it was. *)
Theorem absence_is_a_flag (d : option (gmap string string))
    (key : string) (Habsent : ReadHeavyStruct.stored d key = None) :
  SafeQueue.Dequeue SafeQueue.zero = Returns (0, false) SafeQueue.zero /\
  ReadHeavyStruct.Read key (ReadHeavyStruct.mk rw_zero d)
  = Returns (EmptyString, false) (ReadHeavyStruct.mk rw_zero d).
Proof.
  split; [reflexivity|].
  rewrite Read_idle. unfold ReadHeavyStruct.map_index.
  by rewrite Habsent.
Qed.

Lemma absence_is_a_flag_witness :
  ReadHeavyStruct.stored (Some {[ "foo"%string := "v1"%string ]}) "bar" = None /\
  SafeQueue.Dequeue SafeQueue.zero = Returns (0, false) SafeQueue.zero /\
  ReadHeavyStruct.Read "bar"
    (ReadHeavyStruct.mk rw_zero (Some {[ "foo"%string := "v1"%string ]}))
  = Returns (EmptyString, false)
      (ReadHeavyStruct.mk rw_zero (Some {[ "foo"%string := "v1"%string ]})).
Proof.
  split; [reflexivity|].
  apply (absence_is_a_flag (Some {[ "foo"%string := "v1"%string ]}) "bar").
  reflexivity.
Defined.

(** C4. Read over Write. When Write(k, v1) has returned, Read(k) returns
    (v1, true); and a Write(k, v2) that follows returns too, and after it
    Read(k) returns (v2, true): the last write wins. *)
Theorem Read_after_Write (r r1 : ReadHeavyStruct.t) (k v1 : string)
    (H1 : ReadHeavyStruct.Write k v1 r = Returns tt r1) :
  ReadHeavyStruct.Read k r1 = Returns (v1, true) r1 /\
  (forall v2, exists r2,
      ReadHeavyStruct.Write k v2 r1 = Returns tt r2 /\
      ReadHeavyStruct.Read k r2 = Returns (v2, true) r2).
Proof.
  destruct (Write_cases k v1 r) as [(m & -> & E)|[(-> & E)|E]];
    rewrite E in H1; [|discriminate..].
  inversion H1; subst. clear H1 E.
  assert (forall v m', ReadHeavyStruct.Read k
            (ReadHeavyStruct.mk rw_zero (Some (<[k := v]> m')))
          = Returns (v, true) (ReadHeavyStruct.mk rw_zero (Some (<[k := v]> m'))))
    as Hread.
  { intros v m'. rewrite Read_idle.
    unfold ReadHeavyStruct.map_index, ReadHeavyStruct.stored.
    by rewrite lookup_insert_eq. }
  split; [apply Hread|].
  intros v2. eexists. split; [apply Write_idle_map|apply Hread].
Qed.

Lemma Read_after_Write_witness :
  let r := ReadHeavyStruct.make in
  let r1 := ReadHeavyStruct.mk rw_zero (Some {[ "foo"%string := "v1"%string ]}) in
  ReadHeavyStruct.Write "foo" "v1" r = Returns tt r1 /\
  ReadHeavyStruct.Read "foo" r1 = Returns ("v1"%string, true) r1 /\
  (forall v2, exists r2,
      ReadHeavyStruct.Write "foo" v2 r1 = Returns tt r2 /\
      ReadHeavyStruct.Read "foo" r2 = Returns (v2, true) r2).
Proof.
  intros r r1.
  assert (ReadHeavyStruct.Write "foo" "v1" r = Returns tt r1) as H1.
  { unfold r, r1, ReadHeavyStruct.make. rewrite Write_idle_map.
    by rewrite insert_empty. }
  split; [exact H1|].
  exact (Read_after_Write r r1 "foo" "v1" H1).
Defined.

(** C9. Write on a zero-value ReadHeavyStruct, whose map was never made,
    panics with an assignment to an entry in a nil map (the deferred Unlock
    has released the lock). On an idle store Write returns exactly when the
    map has been made, as the store of TestRWMutex has. *)
Theorem Write_nil_map_panics :
  (forall k v,
      ReadHeavyStruct.Write k v ReadHeavyStruct.zero
      = Panics "assignment to entry in nil map" ReadHeavyStruct.zero) /\
  (forall k v,
      ReadHeavyStruct.Write k v ReadHeavyStruct.make
      = Returns tt (ReadHeavyStruct.mk rw_zero (Some {[ k := v ]}))) /\
  (forall k v d,
      ReadHeavyStruct.Write k v (ReadHeavyStruct.mk rw_zero d)
      = match d with
        | Some m => Returns tt (ReadHeavyStruct.mk rw_zero (Some (<[k := v]> m)))
        | None => Panics "assignment to entry in nil map"
                    (ReadHeavyStruct.mk rw_zero None)
        end).
Proof.
  split; [intros; reflexivity|]. split.
  - intros k v. unfold ReadHeavyStruct.make. rewrite Write_idle_map.
    by rewrite insert_empty.
  - intros k v [m|]; reflexivity.
Qed.

(** C10. Write(k, v) changes the mapping of k only: for every other key k',
    Read(k') on the store Write leaves behind gives the (value, found) pair
    it gave before. *)
Theorem Write_frame (r r' : ReadHeavyStruct.t) (k v k' : string)
    (Hne : k' <> k)
    (Hafter : state_after (ReadHeavyStruct.Write k v r) = Some r') :
  ReadHeavyStruct.Read k' r' = Returns (ReadHeavyStruct.map_index (ReadHeavyStruct.data r) k') r' /\
  ReadHeavyStruct.Read k' r = Returns (ReadHeavyStruct.map_index (ReadHeavyStruct.data r) k') r /\
  returned (ReadHeavyStruct.Read k' r') = returned (ReadHeavyStruct.Read k' r).
Proof.
  destruct (Write_cases k v r) as [(m & -> & E)|[(-> & E)|E]];
    rewrite E in Hafter; simpl in Hafter; [| |discriminate].
  - inversion Hafter; subst. rewrite !Read_idle. simpl.
    assert (ReadHeavyStruct.map_index (Some (<[k:=v]> m)) k'
            = ReadHeavyStruct.map_index (Some m) k') as ->; [|done].
    unfold ReadHeavyStruct.map_index, ReadHeavyStruct.stored.
    by rewrite lookup_insert_ne.
  - inversion Hafter; subst. by rewrite !Read_idle.
Qed.

Lemma Write_frame_witness :
  let r := ReadHeavyStruct.mk rw_zero (Some {[ "bar"%string := "b"%string ]}) in
  let r' := ReadHeavyStruct.mk rw_zero
              (Some (<[ "foo"%string := "v1"%string ]> {[ "bar"%string := "b"%string ]})) in
  "bar"%string <> "foo"%string /\
  state_after (ReadHeavyStruct.Write "foo" "v1" r) = Some r' /\
  ReadHeavyStruct.Read "bar" r' = Returns ("b"%string, true) r' /\
  ReadHeavyStruct.Read "bar" r = Returns ("b"%string, true) r.
Proof.
  intros r r'.
  assert ("bar"%string <> "foo"%string) as Hne by discriminate.
  assert (state_after (ReadHeavyStruct.Write "foo" "v1" r) = Some r') as Ha
    by reflexivity.
  split; [exact Hne|]. split; [exact Ha|].
  destruct (Write_frame r r' "foo" "v1" "bar" Hne Ha) as (H1 & H2 & _).
  split; [exact H1|exact H2].
Defined.

(** ** SafeCounter under concurrent increments *)

Section Workers_facts.
Import Workers.

Lemma Value_free v :
  SafeCounter.Value (SafeCounter.mk false v) = Returns v (SafeCounter.mk false v).
Proof. reflexivity. Qed.

Lemma Increment_free v :
  SafeCounter.Increment (SafeCounter.mk false v)
  = Returns tt (SafeCounter.mk false (wrap_int (v + 1))).
Proof. reflexivity. Qed.

(** The goroutine at index [i], with the goroutines before and after it. *)
Lemma goroutine_at (gs : list goroutine) i g :
  gs !! i = Some g ->
  exists l1 l2, gs = l1 ++ g :: l2 /\
                forall g', <[i := g']> gs = l1 ++ g' :: l2.
Proof.
  intros H. exists (take i gs), (drop (S i) gs). split.
  - symmetry. by apply take_drop_middle.
  - intros g'. apply insert_take_drop. by eapply lookup_lt_Some.
Qed.

Lemma total_app l1 l2 : total (l1 ++ l2) = total l1 + total l2.
Proof. induction l1 as [|g l1 IH]; simpl; [done|]. rewrite IH. lia. Qed.

Lemma holders_app l1 l2 : holders (l1 ++ l2) = (holders l1 + holders l2)%nat.
Proof. induction l1 as [|g l1 IH]; simpl; [done|]. rewrite IH. lia. Qed.

Lemma todo_all_app M l1 l2 :
  todo_all M (l1 ++ l2) = (todo_all M l1 + todo_all M l2)%nat.
Proof. induction l1 as [|g l1 IH]; simpl; [done|]. rewrite IH. lia. Qed.

(** Goroutines outside the critical section do not care about the
    counter; where nobody is inside, all of them are outside. *)
Lemma consistent_outside M c c' g :
  in_critical g = false -> consistent M c g -> consistent M c' g.
Proof.
  intros Hout (Hj & Hc & Hv). split; [done|]. split; [done|].
  intros v Hat. unfold in_critical in Hout. by rewrite Hat in Hout.
Qed.

Lemma holders_none l : holders l = 0%nat -> Forall (fun g => in_critical g = false) l.
Proof.
  induction l as [|g l IH]; simpl; intros H; [constructor|].
  destruct (in_critical g) eqn:E; [lia|]. constructor; [done|]. apply IH. lia.
Qed.

Lemma consistent_all_outside M c c' l :
  holders l = 0%nat -> Forall (consistent M c) l -> Forall (consistent M c') l.
Proof.
  intros H0 Hall. apply holders_none in H0.
  induction Hall as [|g l Hg Hall IH]; [constructor|].
  inversion H0; subst. constructor; [by eapply consistent_outside|by apply IH].
Qed.

Lemma init_invariant N M : invariant M (init N).
Proof.
  unfold invariant, init. simpl.
  induction N as [|N (Hv & Hh & Hall)]; simpl.
  - split; [reflexivity|]. split; [reflexivity|]. constructor.
  - split; [|split].
    + unfold written. simpl. exact Hv.
    + simpl in *. exact Hh.
    + constructor; [|exact Hall].
      split; [simpl; lia|]. split; [discriminate|]. discriminate.
Qed.

(** Every step of every goroutine keeps the invariant. *)
Lemma step_invariant M i st : invariant M st -> invariant M (step M i st).
Proof.
  intros Hinv. unfold step.
  destruct (goroutines st !! i) as [g|] eqn:Hi; [|exact Hinv].
  destruct (goroutine_at _ _ _ Hi) as (l1 & l2 & Hgs & Hins).
  destruct st as [[mu v] gs]. simpl in *. subst gs.
  pose proof Hinv as (Hv & Hh & Hall). simpl in Hv, Hh, Hall.
  rewrite holders_app in Hh. rewrite total_app in Hv. simpl in Hv, Hh.
  apply Forall_app in Hall as [Hl1 Hall].
  apply Forall_cons in Hall as [Hg Hl2].
  destruct Hg as (Hj & Hc & Hs).
  destruct g as [p jg]. unfold in_critical in Hh, Hc. simpl in *.
  destruct p as [| |w|].
  - (* c.mu.Lock() *)
    destruct (Nat.ltb_spec jg M) as [Hlt|Hge]; [|exact Hinv].
    destruct mu; [exact Hinv|].
    rewrite Hins. unfold invariant. simpl.
    rewrite holders_app, total_app. simpl.
    split; [exact Hv|]. split; [unfold in_critical; simpl; lia|].
    apply Forall_app. split; [by eapply Forall_impl; [exact Hl1|]|].
    constructor; [|by eapply Forall_impl; [exact Hl2|]].
    split; [simpl; lia|]. split; [done|]. discriminate.
  - (* the read of c.value *)
    rewrite Hins. unfold invariant. simpl.
    rewrite holders_app, total_app. simpl.
    split; [exact Hv|]. split; [exact Hh|].
    apply Forall_app. split; [done|]. constructor; [|done].
    split; [done|]. split; [simpl; intros; by apply Hc|].
    simpl. intros ? [= <-]. reflexivity.
  - (* the write of c.value *)
    assert (mu = true /\ holders l1 = 0 /\ holders l2 = 0)%nat as (-> & H1 & H2)
      by (destruct mu; lia).
    pose proof (Hs w eq_refl) as ->.
    rewrite Hins. unfold invariant. simpl.
    rewrite holders_app, total_app. simpl.
    split; [|split].
    + rewrite Hv, wrap_int_succ. f_equal. unfold written. simpl. lia.
    + unfold in_critical. simpl. lia.
    + apply Forall_app. split; [by eapply consistent_all_outside|].
      constructor; [|by eapply consistent_all_outside].
      split; [done|]. split; [simpl; intros; by apply Hc|]. discriminate.
  - (* the deferred c.mu.Unlock() *)
    assert (mu = true /\ holders l1 = 0 /\ holders l2 = 0)%nat as (-> & H1 & H2)
      by (destruct mu; lia).
    specialize (Hc eq_refl).
    rewrite Hins. unfold invariant. simpl.
    rewrite holders_app, total_app. simpl.
    split; [|split].
    + rewrite Hv. f_equal. unfold written. simpl. lia.
    + unfold in_critical. simpl. lia.
    + apply Forall_app. split; [by eapply consistent_all_outside|].
      constructor; [|by eapply consistent_all_outside].
      split; [simpl; lia|]. split; [discriminate|]. discriminate.
Qed.

Lemma exec_app M s1 s2 st : exec M (s1 ++ s2) st = exec M s2 (exec M s1 st).
Proof. apply fold_left_app. Qed.

Lemma exec_invariant M sched : forall st,
  invariant M st -> invariant M (exec M sched st).
Proof.
  induction sched as [|i sched IH]; intros st H; [exact H|].
  apply IH. by apply step_invariant.
Qed.

Lemma step_length M i st :
  length (goroutines (step M i st)) = length (goroutines st).
Proof.
  unfold step. destruct (goroutines st !! i) as [g|]; [|done].
  destruct (at_pc g);
    [destruct (j g <? M)%nat; destruct (SafeCounter.mu (counter st))|..];
    simpl; by rewrite ?length_insert.
Qed.

Lemma exec_length M sched : forall st,
  length (goroutines (exec M sched st)) = length (goroutines st).
Proof.
  induction sched as [|i sched IH]; intros st; [done|].
  simpl. rewrite IH. apply step_length.
Qed.

(** When all goroutines have left their loops, each has made M writes and
    nobody holds the lock. *)
Lemma finished_total M gs :
  forallb (fun g => negb (in_critical g) && (j g =? M)%nat) gs = true ->
  total gs = Z.of_nat (length gs) * Z.of_nat M /\ holders gs = 0%nat.
Proof.
  induction gs as [|g gs IH]; simpl; [done|].
  intros H. apply andb_true_iff in H as [Hg Hgs].
  apply andb_true_iff in Hg as [Hc Hj].
  apply negb_true_iff in Hc. apply Nat.eqb_eq in Hj.
  destruct (IH Hgs) as [Ht Hh]. rewrite Ht, Hh, Hc. split; [|done].
  unfold written. unfold in_critical in Hc.
  destruct (at_pc g); try discriminate. lia.
Qed.

Lemma holders_some gs :
  (0 < holders gs)%nat ->
  exists i g, gs !! i = Some g /\ in_critical g = true.
Proof.
  induction gs as [|g gs IH]; simpl; [lia|]. intros H.
  destruct (in_critical g) eqn:E.
  - exists 0%nat, g. by split.
  - destruct IH as (i & g' & Hi & Hc); [lia|]. exists (S i), g'. by split.
Qed.

Lemma forallb_false_lookup {A} (p : A -> bool) (l : list A) :
  forallb p l = false -> exists i x, l !! i = Some x /\ p x = false.
Proof.
  induction l as [|x l IH]; simpl; [discriminate|]. intros H.
  destruct (p x) eqn:E.
  - destruct (IH H) as (i & y & Hi & Hy). exists (S i), y. by split.
  - exists 0%nat, x. by split.
Qed.

(** No deadlock: as long as some goroutine has not left its loop, some
    goroutine can move, and its move brings the end nearer. *)
Lemma progress M st :
  invariant M st -> finished M st = false ->
  exists i, (todo_all M (goroutines (step M i st)) < todo_all M (goroutines st))%nat.
Proof.
  intros (Hv & Hh & Hall) Hfin.
  assert (exists i g, goroutines st !! i = Some g /\
            (in_critical g = true \/
             (SafeCounter.mu (counter st) = false /\ (j g < M)%nat)))
    as (i & g & Hi & Hcan).
  { destruct (SafeCounter.mu (counter st)) eqn:Emu.
    - destruct (holders_some (goroutines st)) as (i & g & Hi & Hc); [lia|].
      exists i, g. split; [done|]. by left.
    - apply forallb_false_lookup in Hfin as (i & g & Hi & Hp).
      exists i, g. split; [done|]. right. split; [done|].
      pose proof (Forall_lookup_1 _ _ _ _ Hall Hi) as (Hj & _ & _).
      pose proof (Forall_lookup_1 _ _ _ _ (holders_none _ Hh) Hi) as Hout.
      simpl in Hout. rewrite Hout in Hp. simpl in Hp.
      apply Nat.eqb_neq in Hp. lia. }
  exists i. unfold step. rewrite Hi.
  pose proof (Forall_lookup_1 _ _ _ _ Hall Hi) as (Hj & Hc & _).
  destruct (goroutine_at _ _ _ Hi) as (l1 & l2 & Hgs & Hins).
  destruct g as [p jg]. unfold in_critical in Hc, Hcan. simpl in *.
  destruct p as [| |w|]; simpl; rewrite ?Hins.
  - destruct Hcan as [?|[-> Hlt]]; [discriminate|].
    destruct (Nat.ltb_spec jg M); [|lia]. simpl. rewrite Hgs.
    rewrite !todo_all_app. simpl. unfold todo. simpl. lia.
  - specialize (Hc eq_refl). rewrite Hgs, !todo_all_app. simpl.
    unfold todo. simpl. lia.
  - specialize (Hc eq_refl). rewrite Hgs, !todo_all_app. simpl.
    unfold todo. simpl. lia.
  - specialize (Hc eq_refl). rewrite Hgs, !todo_all_app. simpl.
    unfold todo. simpl. lia.
Qed.

(** From every state the goroutines can reach, they can all run to the
    end of their loops. *)
Lemma can_finish M : forall n st,
  (todo_all M (goroutines st) <= n)%nat -> invariant M st ->
  exists sched, finished M (exec M sched st) = true.
Proof.
  induction n as [|n IH]; intros st Hn Hinv.
  - destruct (finished M st) eqn:Hfin; [by exists []|].
    destruct (progress M st Hinv Hfin) as (i & Hlt). lia.
  - destruct (finished M st) eqn:Hfin; [by exists []|].
    destruct (progress M st Hinv Hfin) as (i & Hlt).
    destruct (IH (step M i st)) as (sched & Hs);
      [lia|by apply step_invariant|].
    by exists (i :: sched).
Qed.

(** In a state all goroutines have finished in, the counter is free and
    holds the number of goroutines times M, wrapped to an [int]. *)
Lemma finished_value N M sched :
  finished M (exec M sched (init N)) = true ->
  counter (exec M sched (init N))
  = SafeCounter.mk false (wrap_int (Z.of_nat N * Z.of_nat M)).
Proof.
  intros Hfin.
  pose proof (exec_invariant M sched _ (init_invariant N M)) as (Hv & Hh & _).
  apply finished_total in Hfin as [Ht H0].
  rewrite exec_length in Ht. simpl in Ht. rewrite length_replicate in Ht.
  rewrite Ht in Hv. rewrite H0 in Hh.
  destruct (counter (exec M sched (init N))) as [mu v]. simpl in *.
  destruct mu; [discriminate|]. by rewrite Hv.
Qed.

(** The steps of the goroutine at index [i], one by one. *)
Lemma step_lock M i v gs jg :
  gs !! i = Some (mkG AtLock jg) -> (jg < M)%nat ->
  step M i (mkSt (SafeCounter.mk false v) gs)
  = mkSt (SafeCounter.mk true v) (<[i := mkG AtLoad jg]> gs).
Proof.
  intros Hi Hlt. unfold step. simpl. rewrite Hi. simpl.
  by destruct (Nat.ltb_spec jg M); [|lia].
Qed.

Lemma step_load M i c gs jg :
  (i < length gs)%nat ->
  step M i (mkSt c (<[i := mkG AtLoad jg]> gs))
  = mkSt c (<[i := mkG (AtStore (SafeCounter.value c)) jg]> gs).
Proof.
  intros Hi. unfold step. simpl. rewrite list_lookup_insert_eq by done.
  simpl. by rewrite list_insert_insert_eq.
Qed.

Lemma step_store M i c gs w jg :
  (i < length gs)%nat ->
  step M i (mkSt c (<[i := mkG (AtStore w) jg]> gs))
  = mkSt (SafeCounter.mk (SafeCounter.mu c) (wrap_int (w + 1)))
         (<[i := mkG AtUnlock jg]> gs).
Proof.
  intros Hi. unfold step. simpl. rewrite list_lookup_insert_eq by done.
  simpl. by rewrite list_insert_insert_eq.
Qed.

Lemma step_unlock M i c gs jg :
  (i < length gs)%nat ->
  step M i (mkSt c (<[i := mkG AtUnlock jg]> gs))
  = mkSt (SafeCounter.mk false (SafeCounter.value c))
         (<[i := mkG AtLock (S jg)]> gs).
Proof.
  intros Hi. unfold step. simpl. rewrite list_lookup_insert_eq by done.
  simpl. by rewrite list_insert_insert_eq.
Qed.

(** A goroutine that is let through its four steps in one go does to the
    counter what one call of Increment does. *)
Lemma four_steps_are_Increment M i st jg :
  goroutines st !! i = Some (mkG AtLock jg) ->
  (jg < M)%nat ->
  SafeCounter.mu (counter st) = false ->
  SafeCounter.Increment (counter st)
  = Returns tt (counter (exec M [i; i; i; i] st)) /\
  goroutines (exec M [i; i; i; i] st) = <[i := mkG AtLock (S jg)]> (goroutines st).
Proof.
  intros Hi Hlt Hmu. destruct st as [[mu v] gs]. simpl in *. subst mu.
  pose proof (lookup_lt_Some _ _ _ Hi) as Hlen.
  unfold exec. simpl.
  rewrite (step_lock M i v gs jg Hi Hlt).
  rewrite step_load by done. rewrite step_store by done.
  rewrite step_unlock by done. split; reflexivity.
Qed.

End Workers_facts.

(** C1. N goroutines each call Increment M times on one SafeCounter that
    starts at 0, in any interleaving of their steps (taking the lock,
    reading the value, writing it, releasing the lock). When all of them
    have returned, Value() returns N×M: no update is lost. The counter is a
    Go [int], so this is for N×M within its range. The goroutines never
    deadlock: whatever has happened so far, they can all run to their
    end. *)
Theorem counter_no_lost_updates (N M : nat) (sched : list nat)
    (Hrange : Z.of_nat N * Z.of_nat M <= int_max)
    (Hdone : Workers.finished M (Workers.exec M sched (Workers.init N)) = true) :
  SafeCounter.Value (Workers.counter (Workers.exec M sched (Workers.init N)))
  = Returns (Z.of_nat N * Z.of_nat M)
      (Workers.counter (Workers.exec M sched (Workers.init N))) /\
  (forall sched0, exists sched1,
      Workers.finished M (Workers.exec M (sched0 ++ sched1) (Workers.init N)) = true).
Proof.
  split.
  - rewrite (finished_value N M sched Hdone).
    rewrite wrap_int_small; [apply Value_free|].
    unfold int_min, int_max in *. lia.
  - intros sched0.
    destruct (can_finish M _ (Workers.exec M sched0 (Workers.init N)) (le_n _))
      as (sched1 & H1).
    { apply exec_invariant, init_invariant. }
    exists sched1. by rewrite exec_app.
Qed.

(** Two goroutines, three increments each; while one is between Lock and
    Unlock the other one tries to take the lock, and waits. *)
Lemma counter_no_lost_updates_witness :
  let sched := [0; 1; 0; 1; 0; 1; 0;  1; 0; 1; 0; 1; 0; 1;
                0; 1; 0; 1; 0; 1; 0;  1; 0; 1; 0; 1; 0; 1;
                0; 1; 0; 1; 0; 1; 0;  1; 0; 1; 0; 1; 0; 1]%nat in
  Z.of_nat 2 * Z.of_nat 3 <= int_max /\
  Workers.finished 3 (Workers.exec 3 sched (Workers.init 2)) = true /\
  SafeCounter.Value (Workers.counter (Workers.exec 3 sched (Workers.init 2)))
  = Returns 6 (Workers.counter (Workers.exec 3 sched (Workers.init 2))).
Proof.
  intros sched.
  assert (Z.of_nat 2 * Z.of_nat 3 <= int_max) as Hr by (vm_compute; discriminate).
  assert (Workers.finished 3 (Workers.exec 3 sched (Workers.init 2)) = true) as Hd
    by (vm_compute; reflexivity).
  split; [exact Hr|]. split; [exact Hd|].
  exact (proj1 (counter_no_lost_updates 2 3 sched Hr Hd)).
Defined.

(** The loop of the unprotected worker, [counter++] with no lock, loses an
    update when two goroutines read before either writes. *)
Example unprotected_loses_update :
  let st := fold_left (fun st i => Workers.step_unprotected 1 i st)
              [0; 1; 0; 1]%nat (Workers.init 2) in
  Workers.finished 1 st = true /\
  SafeCounter.value (Workers.counter st) = 1.
Proof. split; reflexivity. Qed.

(** ** generatorWithBoring *)

Section Generator_facts.

Variable rng : Type.
Variable rand_Intn : Z -> rng -> Z * rng.

Lemma turns_messages msg k : forall (a : nat) (r : rng),
  Z.of_nat a + Z.of_nat k <= int_max + 1 ->
  map fst (turns rng rand_Intn msg k (mkGen (Z.of_nat a) r))
  = map (numbered msg) (seq a k).
Proof.
  induction k as [|k IH]; intros a r Hr; [reflexivity|].
  simpl. unfold iteration. simpl.
  destruct (rand_Intn 1000 r) as [n r']. simpl. f_equal.
  destruct k as [|k]; [reflexivity|].
  rewrite wrap_int_small by (unfold int_min, int_max in *; lia).
  replace (Z.of_nat a + 1) with (Z.of_nat (S a)) by lia.
  apply IH. lia.
Qed.

Lemma turns_length msg k : forall st,
  length (turns rng rand_Intn msg k st) = k.
Proof.
  induction k as [|k IH]; intros st; [reflexivity|].
  simpl. destruct (iteration rng rand_Intn msg st) as [ev st'].
  simpl. by rewrite IH.
Qed.

(** [rand.Intn(n)] returns a number in [0, n) for a positive [n]. *)
Hypothesis rand_Intn_range :
  forall n s, 0 < n -> 0 <= fst (rand_Intn n s) < n.

Lemma turns_delays msg k : forall st,
  Forall (fun ns => exists d, 0 <= d <= 999 /\ ns = Millisecond * d)
         (map snd (turns rng rand_Intn msg k st)).
Proof.
  induction k as [|k IH]; intros st; [constructor|].
  simpl. unfold iteration.
  pose proof (rand_Intn_range 1000 (gen_rng st) ltac:(lia)) as Hd.
  destruct (rand_Intn 1000 (gen_rng st)) as [n r']. simpl in *.
  constructor; [|apply IH].
  exists n. split; [lia|].
  apply wrap_int_small. unfold int_min, int_max, Millisecond. lia.
Qed.

End Generator_facts.

Lemma lcg_Intn_range n s : 0 < n -> 0 <= fst (lcg_Intn n s) < n.
Proof. intros H. simpl. by apply Z.mod_pos_bound. Qed.

(** C7. For every label, the messages the generator sends are, in the
    order of the sends, label ++ " " ++ decimal(i) for i = 0, 1, 2, ...: the
    number starts at 0 and grows by one with each send. The number is a Go
    [int]: this is for the first 2^63 sends, whatever the random source. *)
Theorem generator_stream (rng : Type) (rand_Intn : Z -> rng -> Z * rng)
    (msg : string) (seed : rng) (k : nat)
    (Hrange : Z.of_nat k <= int_max + 1) :
  messages rng rand_Intn msg seed k
  = map (fun i => msg +:+ " " +:+ NilZero.string_of_int (Z.to_int (Z.of_nat i)))
        (seq 0 k).
Proof.
  unfold messages, generatorWithBoring.
  apply (turns_messages rng rand_Intn msg k 0 seed). simpl. lia.
Qed.

Lemma generator_stream_witness :
  Z.of_nat 4 <= int_max + 1 /\
  messages Z lcg_Intn "Joe" 42 4
  = ["Joe 0"; "Joe 1"; "Joe 2"; "Joe 3"]%string.
Proof.
  assert (Z.of_nat 4 <= int_max + 1) as Hr by (vm_compute; discriminate).
  split; [exact Hr|].
  exact (generator_stream Z lcg_Intn "Joe" 42 4 Hr).
Defined.

(** C8. The generator sleeps after every send, and the duration it sleeps
    is a whole number d of milliseconds with 0 <= d <= 999, at every turn
    of the loop, for a random source whose Intn(n) keeps to [0, n). *)
Theorem generator_delay (rng : Type) (rand_Intn : Z -> rng -> Z * rng)
    (rand_Intn_range : forall n s, 0 < n -> 0 <= fst (rand_Intn n s) < n)
    (msg : string) (seed : rng) (k : nat) :
  length (delays rng rand_Intn msg seed k) = k /\
  Forall (fun ns => exists d, 0 <= d <= 999 /\ ns = Millisecond * d)
         (delays rng rand_Intn msg seed k).
Proof.
  unfold delays, generatorWithBoring. split.
  - by rewrite length_map, turns_length.
  - by apply turns_delays.
Qed.

Lemma generator_delay_witness :
  (forall n s, 0 < n -> 0 <= fst (lcg_Intn n s) < n) /\
  length (delays Z lcg_Intn "Joe" 42 3) = 3%nat /\
  Forall (fun ns => exists d, 0 <= d <= 999 /\ ns = Millisecond * d)
         (delays Z lcg_Intn "Joe" 42 3).
Proof.
  split; [exact lcg_Intn_range|].
  exact (generator_delay Z lcg_Intn lcg_Intn_range "Joe" 42 3).
Defined.

(** ** fanIn *)

Section FanIn_facts.
Import FanIn.

Lemma Merge_snoc_left {A} (x : A) a b l :
  Merge a b l -> Merge (a ++ [x]) b (l ++ [x]).
Proof.
  induction 1 as [|y l1 l2 l H IH|y l1 l2 l H IH]; simpl.
  - apply Merge_left, Merge_nil.
  - by apply Merge_left.
  - by apply Merge_right.
Qed.

Lemma Merge_snoc_right {A} (x : A) a b l :
  Merge a b l -> Merge a (b ++ [x]) (l ++ [x]).
Proof.
  induction 1 as [|y l1 l2 l H IH|y l1 l2 l H IH]; simpl.
  - apply Merge_right, Merge_nil.
  - by apply Merge_left.
  - by apply Merge_right.
Qed.




Lemma fanIn_exec_app s1 s2 st : exec (s1 ++ s2) st = exec s2 (exec s1 st).
Proof. apply fold_left_app. Qed.

Lemma fanIn_invariant l1 l2 :
  invariant l1 l2 (fanIn (silent_after l1) (silent_after l2)).
Proof.
  exists [], []. simpl. repeat split; constructor.
Qed.

Lemma fanIn_step_invariant l1 l2 f st :
  invariant l1 l2 st -> invariant l1 l2 (step f st).
Proof.
  intros Hinv. pose proof Hinv as (a1 & a2 & Hm & H1 & H2 & Hc1 & Hc2).
  destruct st as [[p1 c1] [p2 c2] h1 h2 o]. simpl in *. subst c1 c2.
  destruct f; simpl.
  - destruct h1 as [m|]; simpl in *.
    + exists (a1 ++ [m]), a2. simpl. split; [by apply Merge_snoc_left|].
      split; [by rewrite <- app_assoc|]. done.
    + unfold recv. simpl. destruct p1 as [|m rest]; [exact Hinv|].
      exists a1, a2. simpl. done.
  - destruct h2 as [m|]; simpl in *.
    + exists a1, (a2 ++ [m]). simpl. split; [by apply Merge_snoc_right|].
      split; [done|]. split; [by rewrite <- app_assoc|]. done.
    + unfold recv. simpl. destruct p2 as [|m rest]; [exact Hinv|].
      exists a1, a2. simpl. done.
Qed.

Lemma fanIn_exec_invariant l1 l2 sched : forall st,
  invariant l1 l2 st -> invariant l1 l2 (exec sched st).
Proof.
  induction sched as [|f sched IH]; intros st H; [exact H|].
  apply IH. by apply fanIn_step_invariant.
Qed.




End FanIn_facts.




(** C6, as the code has it. fanIn takes exactly two input streams. The
    call returns at once, with nothing forwarded yet and one goroutine per
    input, each about to receive from its own input. Each goroutine, for
    ever, receives a value from its input and then sends that value into
    the one shared output, and leaves the other input alone. *)
Theorem fanIn_two_forwarders :
  (forall a b, FanIn.call_fanIn [a; b] = Some (FanIn.fanIn a b)) /\
  (forall args,
      match FanIn.call_fanIn args with Some _ => true | None => false end
      = (length args =? 2)%nat) /\
  (forall a b, FanIn.fanIn a b = FanIn.mkSt a b None None []) /\
  (forall m rest c b h2 o,
      FanIn.step FanIn.F1 (FanIn.mkSt (FanIn.mkIn (m :: rest) c) b None h2 o)
      = FanIn.mkSt (FanIn.mkIn rest c) b (Some m) h2 o) /\
  (forall m a b h2 o,
      FanIn.step FanIn.F1 (FanIn.mkSt a b (Some m) h2 o)
      = FanIn.mkSt a b None h2 (o ++ [m])) /\
  (forall m rest c a h1 o,
      FanIn.step FanIn.F2 (FanIn.mkSt a (FanIn.mkIn (m :: rest) c) h1 None o)
      = FanIn.mkSt a (FanIn.mkIn rest c) h1 (Some m) o) /\
  (forall m a b h1 o,
      FanIn.step FanIn.F2 (FanIn.mkSt a b h1 (Some m) o)
      = FanIn.mkSt a b h1 None (o ++ [m])).
Proof.
  split; [reflexivity|]. split.
  - intros [|a [|b [|c args]]]; reflexivity.
  - repeat split; reflexivity.
Qed.

(** C6, as stated, fails: a call with three input streams does not
    compile. *)
Lemma fanIn_rejects_three_inputs :
  let args := [FanIn.silent_after ["Joe 0"%string];
               FanIn.silent_after ["Ann 0"%string];
               FanIn.silent_after ["Bob 0"%string]] in
  (2 <= length args)%nat /\ FanIn.call_fanIn args = None.
Proof. split; [simpl; lia|reflexivity]. Qed.

(** * Further properties of the code *)

(** ** SafeCounter *)

Lemma wrap_int_add a b : wrap_int (wrap_int a + b) = wrap_int (a + b).
Proof.
  unfold wrap_int.
  replace ((a + 2 ^ 63) mod 2 ^ 64 - 2 ^ 63 + b + 2 ^ 63)
    with ((a + 2 ^ 63) mod 2 ^ 64 + b) by lia.
  replace (a + b + 2 ^ 63) with ((a + 2 ^ 63) + b) by lia.
  by rewrite Zplus_mod_idemp_l.
Qed.

Lemma wrap_int_range z : int_min <= wrap_int z <= int_max.
Proof.
  unfold wrap_int, int_min, int_max.
  pose proof (Z.mod_pos_bound (z + 2 ^ 63) (2 ^ 64) ltac:(lia)). lia.
Qed.

Lemma holders_none_total gs :
  Workers.holders gs = 0%nat ->
  Workers.total gs = increments_done gs.
Proof.
  induction gs as [|g gs IH]; simpl; [done|]. intros H.
  unfold Workers.in_critical, Workers.written in *.
  destruct (Workers.at_pc g); lia.
Qed.

(** X1. Mutual exclusion. However the steps of the goroutines that call
    Increment interleave, at most one goroutine is between Lock and Unlock,
    and one is there exactly when the mutex is held. *)
Theorem Increment_mutual_exclusion (N M : nat) (sched : list nat) :
  let st := Workers.exec M sched (Workers.init N) in
  Workers.holders (Workers.goroutines st)
  = (if SafeCounter.mu (Workers.counter st) then 1 else 0)%nat /\
  (Workers.holders (Workers.goroutines st) <= 1)%nat.
Proof.
  intros st.
  pose proof (exec_invariant M sched _ (init_invariant N M)) as (_ & Hh & _).
  fold st in Hh. split; [exact Hh|]. rewrite Hh.
  destruct (SafeCounter.mu (Workers.counter st)); lia.
Qed.

(** X2. Value() is a snapshot. Called at any moment while goroutines are
    calling Increment, Value() waits when one of them holds the lock, and
    otherwise returns the number of Increment calls completed so far
    (wrapped to an [int]) and leaves the counter as it is. *)
Theorem Value_is_a_snapshot (N M : nat) (sched : list nat) :
  let st := Workers.exec M sched (Workers.init N) in
  SafeCounter.Value (Workers.counter st)
  = if SafeCounter.mu (Workers.counter st) then Blocks
    else Returns (wrap_int (increments_done (Workers.goroutines st)))
                 (Workers.counter st).
Proof.
  intros st.
  pose proof (exec_invariant M sched _ (init_invariant N M)) as (Hv & Hh & _).
  fold st in Hv, Hh.
  destruct (Workers.counter st) as [mu v]. simpl in *.
  destruct mu; [reflexivity|].
  rewrite Value_free, Hv. by rewrite holders_none_total.
Qed.

(** X3. A single caller: n calls of Increment on a fresh SafeCounter all
    return and leave the lock free, and Value() then returns n wrapped to
    an [int]: n itself up to 2^63 - 1, and -2^63 right after that. *)
Theorem Increment_n_times (n : nat) :
  times n SafeCounter.Increment SafeCounter.zero
  = Returns tt (SafeCounter.mk false (wrap_int (Z.of_nat n))) /\
  bind (times n SafeCounter.Increment) (fun _ => SafeCounter.Value) SafeCounter.zero
  = Returns (wrap_int (Z.of_nat n)) (SafeCounter.mk false (wrap_int (Z.of_nat n))) /\
  SafeCounter.Increment (SafeCounter.mk false int_max)
  = Returns tt (SafeCounter.mk false int_min).
Proof.
  assert (forall k v, times k SafeCounter.Increment (SafeCounter.mk false (wrap_int v))
                      = Returns tt (SafeCounter.mk false (wrap_int (v + Z.of_nat k))))
    as H.
  { induction k as [|k IH]; intros v.
    - simpl. unfold ret. by rewrite Z.add_0_r.
    - change (times (S k) SafeCounter.Increment (SafeCounter.mk false (wrap_int v)))
        with (times k SafeCounter.Increment
                (SafeCounter.mk false (wrap_int (wrap_int v + 1)))).
      rewrite wrap_int_add, IH. do 3 f_equal. lia. }
  assert (times n SafeCounter.Increment SafeCounter.zero
          = Returns tt (SafeCounter.mk false (wrap_int (Z.of_nat n)))) as Hn
    by exact (H n 0).
  split; [exact Hn|]. split; [|reflexivity].
  unfold bind. by rewrite Hn.
Qed.

(** ** The counter without a mutex *)

Section Unprotected_facts.
Import Workers.

Lemma stores_app l1 l2 :
  increments_done (l1 ++ l2) = increments_done l1 + increments_done l2.
Proof. induction l1 as [|g l1 IH]; simpl; [done|]. rewrite IH. lia. Qed.

Lemma unprotected_todo_app M l1 l2 :
  Unprotected.todo_all M (l1 ++ l2)
  = (Unprotected.todo_all M l1 + Unprotected.todo_all M l2)%nat.
Proof. induction l1 as [|g l1 IH]; simpl; [done|]. rewrite IH. lia. Qed.

Lemma ok_mono M slack d d' g :
  d <= d' -> Unprotected.ok M slack d g -> Unprotected.ok M slack d' g.
Proof.
  intros Hd [Hj Hp]. split; [done|].
  destruct (at_pc g); try done. destruct Hp as (? & ? & ?). repeat split; lia.
Qed.

Lemma stores_bound M slack d gs :
  Forall (Unprotected.ok M slack d) gs ->
  increments_done gs <= Z.of_nat (length gs) * Z.of_nat M.
Proof.
  induction 1 as [|g gs [Hj _] _ IH]; simpl; [lia|]. lia.
Qed.

Lemma unprotected_step_sound M slack i st :
  0 <= slack ->
  Z.of_nat (length (goroutines st)) * Z.of_nat M <= int_max ->
  Unprotected.sound M slack st ->
  Unprotected.sound M slack (step_unprotected M i st).
Proof.
  intros Hslack Hrange Hs. unfold step_unprotected.
  destruct (goroutines st !! i) as [g|] eqn:Hi; [|exact Hs].
  destruct (goroutine_at _ _ _ Hi) as (l1 & l2 & Hgs & Hins).
  destruct st as [[mu v] gs]. simpl in *. subst gs.
  pose proof Hs as (H0 & Hv & Hall). simpl in H0, Hv, Hall.
  pose proof (stores_bound _ _ _ _ Hall) as Hb.
  rewrite length_app in Hrange, Hb. simpl in Hrange, Hb.
  rewrite stores_app in Hv, Hb, Hall. simpl in Hv, Hb, Hall.
  apply Forall_app in Hall as [Hl1 Hall].
  apply Forall_cons in Hall as [[Hj Hg] Hl2].
  pose proof (stores_bound _ _ _ _ Hl1) as Hb1.
  pose proof (stores_bound _ _ _ _ Hl2) as Hb2.
  destruct g as [p jg]. simpl in *.
  destruct p as [| |w|]; try done.
  - (* the read of the shared variable *)
    destruct (Nat.ltb_spec jg M) as [Hlt|Hge]; [|exact Hs].
    rewrite Hins. unfold Unprotected.sound. simpl.
    rewrite stores_app. simpl.
    split; [done|]. split; [done|].
    apply Forall_app. split; [done|]. constructor; [|done].
    split; [done|]. simpl. repeat split; lia.
  - (* the write of the shared variable *)
    destruct Hg as (Hlt & Hw0 & Hw).
    assert (wrap_int (w + 1) = w + 1) as ->.
    { apply wrap_int_small. unfold int_min, int_max in *. nia. }
    rewrite Hins. unfold Unprotected.sound. simpl.
    rewrite stores_app. simpl.
    split; [lia|]. split; [lia|].
    apply Forall_app. split.
    + eapply Forall_impl; [exact Hl1|]. intros g. apply ok_mono. lia.
    + constructor.
      * split; [simpl; lia|done].
      * eapply Forall_impl; [exact Hl2|]. intros g. apply ok_mono. lia.
Qed.

Lemma unprotected_step_length M i st :
  length (goroutines (step_unprotected M i st)) = length (goroutines st).
Proof.
  unfold step_unprotected. destruct (goroutines st !! i) as [g|]; [|done].
  destruct (at_pc g); [destruct (j g <? M)%nat|..];
    simpl; by rewrite ?length_insert.
Qed.

Lemma unprotected_exec_length M sched : forall st,
  length (goroutines (Unprotected.exec M sched st)) = length (goroutines st).
Proof.
  induction sched as [|i sched IH]; intros st; [done|].
  simpl. rewrite IH. apply unprotected_step_length.
Qed.

Lemma unprotected_exec_sound M slack sched : forall st,
  0 <= slack ->
  Z.of_nat (length (goroutines st)) * Z.of_nat M <= int_max ->
  Unprotected.sound M slack st ->
  Unprotected.sound M slack (Unprotected.exec M sched st).
Proof.
  induction sched as [|i sched IH]; intros st H0 Hr Hs; [exact Hs|].
  simpl. apply IH; [done| |by apply unprotected_step_sound].
  by rewrite unprotected_step_length.
Qed.

Lemma unprotected_progress M slack st :
  Unprotected.sound M slack st -> finished M st = false ->
  exists i, (Unprotected.todo_all M (goroutines (step_unprotected M i st))
             < Unprotected.todo_all M (goroutines st))%nat.
Proof.
  intros (_ & _ & Hall) Hfin.
  apply forallb_false_lookup in Hfin as (i & g & Hi & Hp).
  exists i. unfold step_unprotected. rewrite Hi.
  pose proof (Forall_lookup_1 _ _ _ _ Hall Hi) as [Hj Hg].
  destruct (goroutine_at _ _ _ Hi) as (l1 & l2 & Hgs & Hins).
  destruct g as [p jg]. unfold in_critical in Hp. simpl in *.
  destruct p as [| |w|]; try done; simpl in Hp.
  - apply Nat.eqb_neq in Hp.
    destruct (Nat.ltb_spec jg M); [|lia]. simpl. rewrite Hins, Hgs.
    rewrite !unprotected_todo_app. simpl. unfold Unprotected.todo. simpl. lia.
  - destruct Hg as (Hlt & _). simpl. rewrite Hins, Hgs.
    rewrite !unprotected_todo_app. simpl. unfold Unprotected.todo. simpl. lia.
Qed.

Lemma unprotected_can_finish M slack : forall n st,
  (Unprotected.todo_all M (goroutines st) <= n)%nat ->
  0 <= slack ->
  Z.of_nat (length (goroutines st)) * Z.of_nat M <= int_max ->
  Unprotected.sound M slack st ->
  exists sched, finished M (Unprotected.exec M sched st) = true.
Proof.
  induction n as [|n IH]; intros st Hn H0 Hr Hs.
  - destruct (finished M st) eqn:Hfin; [by exists []|].
    destruct (unprotected_progress M slack st Hs Hfin) as (i & Hlt). lia.
  - destruct (finished M st) eqn:Hfin; [by exists []|].
    destruct (unprotected_progress M slack st Hs Hfin) as (i & Hlt).
    destruct (IH (step_unprotected M i st)) as (sched & Hsched);
      [lia|done|by rewrite unprotected_step_length
      |by apply unprotected_step_sound|].
    by exists (i :: sched).
Qed.

Lemma finished_stores M gs :
  forallb (fun g => negb (in_critical g) && (j g =? M)%nat) gs = true ->
  increments_done gs = Z.of_nat (length gs) * Z.of_nat M.
Proof.
  intros H. destruct (finished_total M gs H) as [Ht Hh].
  by rewrite <- holders_none_total.
Qed.

Lemma unprotected_init_sound N M : Unprotected.sound M 0 (init N).
Proof.
  unfold Unprotected.sound, init. simpl.
  induction N as [|N (H0 & Hv & Hall)]; simpl.
  - split; [done|]. split; [done|]. constructor.
  - split; [done|]. split; [simpl in *; lia|].
    constructor; [split; [simpl; lia|done]|]. simpl in *. exact Hall.
Qed.

End Unprotected_facts.

Lemma unprotected_exec_app M s1 s2 st :
  Unprotected.exec M (s1 ++ s2) st
  = Unprotected.exec M s2 (Unprotected.exec M s1 st).
Proof. apply fold_left_app. Qed.

Lemma stores_fresh n :
  increments_done (replicate n (Workers.mkG Workers.AtLock 0)) = 0.
Proof. induction n as [|n IH]; simpl; [done|]. by rewrite IH. Qed.

(** X4. The counter without a mutex. N goroutines run [counter++] M times
    each, a read and a write with nothing in between to keep the others
    out (N×M within the [int] range). The counter never exceeds N×M; and
    with two goroutines or more it can end below N×M: there is a run in
    which all goroutines finish and an update is lost. *)
Theorem unprotected_counter_loses_updates (N M : nat)
    (HN : (2 <= N)%nat) (HM : (1 <= M)%nat)
    (Hrange : Z.of_nat N * Z.of_nat M <= int_max) :
  (forall sched,
      0 <= SafeCounter.value (Workers.counter (Unprotected.exec M sched (Workers.init N)))
        <= Z.of_nat N * Z.of_nat M) /\
  (exists sched,
      Workers.finished M (Unprotected.exec M sched (Workers.init N)) = true /\
      SafeCounter.value (Workers.counter (Unprotected.exec M sched (Workers.init N)))
      < Z.of_nat N * Z.of_nat M).
Proof.
  assert (length (Workers.goroutines (Workers.init N)) = N) as HlenN
    by (simpl; apply length_replicate).
  split.
  - intros sched.
    pose proof (unprotected_exec_sound M 0 sched (Workers.init N)) as Hs.
    rewrite HlenN in Hs.
    destruct (Hs ltac:(lia) Hrange (unprotected_init_sound N M)) as (H0 & Hv & Hall).
    apply stores_bound in Hall.
    rewrite unprotected_exec_length, HlenN in Hall. lia.
  - destruct N as [|[|n]]; [lia..|]. destruct M as [|m]; [lia|].
    set (s0 := Workers.mkSt (SafeCounter.mk false 1)
                 (Workers.mkG Workers.AtLock 1 :: Workers.mkG Workers.AtLock 1
                  :: replicate n (Workers.mkG Workers.AtLock 0))).
    assert (Unprotected.exec (S m) [0; 1; 0; 1]%nat (Workers.init (S (S n))) = s0)
      as Hs0 by reflexivity.
    pose proof (stores_fresh n) as Hz.
    assert (length (Workers.goroutines s0) = S (S n)) as Hlen0
      by (simpl; by rewrite length_replicate).
    assert (Unprotected.sound (S m) 1 s0) as Hsound.
    { unfold Unprotected.sound, s0. simpl. rewrite Hz.
      split; [lia|]. split; [lia|].
      constructor; [split; [simpl; lia|done]|].
      constructor; [split; [simpl; lia|done]|].
      apply Forall_replicate. split; [simpl; lia|done]. }
    destruct (unprotected_can_finish (S m) 1 _ s0 (le_n _)) as (sched & Hfin);
      [lia|by rewrite Hlen0|exact Hsound|].
    exists ([0; 1; 0; 1]%nat ++ sched).
    rewrite unprotected_exec_app, Hs0. split; [exact Hfin|].
    pose proof (unprotected_exec_sound (S m) 1 sched s0) as Hs.
    rewrite Hlen0 in Hs.
    destruct (Hs ltac:(lia) Hrange Hsound) as (_ & Hv & _).
    rewrite (finished_stores (S m) _ Hfin) in Hv.
    rewrite unprotected_exec_length, Hlen0 in Hv. lia.
Qed.

Lemma unprotected_counter_loses_updates_witness :
  (2 <= 2)%nat /\ (1 <= 1)%nat /\ Z.of_nat 2 * Z.of_nat 1 <= int_max /\
  exists sched,
    Workers.finished 1 (Unprotected.exec 1 sched (Workers.init 2)) = true /\
    SafeCounter.value (Workers.counter (Unprotected.exec 1 sched (Workers.init 2)))
    < Z.of_nat 2 * Z.of_nat 1.
Proof.
  assert (Z.of_nat 2 * Z.of_nat 1 <= int_max) as Hr by (vm_compute; discriminate).
  split; [lia|]. split; [lia|]. split; [exact Hr|].
  exact (proj2 (unprotected_counter_loses_updates 2 1 (le_n 2) (le_n 1) Hr)).
Defined.

(** ** The atomic counter *)

Lemma lookup_split {A} (l : list A) i x :
  l !! i = Some x ->
  exists l1 l2, l = l1 ++ x :: l2 /\ forall y, <[i := y]> l = l1 ++ y :: l2.
Proof.
  intros H. exists (take i l), (drop (S i) l). split.
  - symmetry. by apply take_drop_middle.
  - intros y. apply insert_take_drop. by eapply lookup_lt_Some.
Qed.

Section AtomicCounter_facts.
Import AtomicCounter.











End AtomicCounter_facts.



(** ** Locking done wrong and done right *)

Section LockDemo_facts.
Import LockDemo.

Lemma holding_app l1 l2 : holding (l1 ++ l2) = (holding l1 + holding l2)%nat.
Proof. induction l1 as [|p l1 IH]; simpl; [done|]. rewrite IH. lia. Qed.

Lemma lock_todo_app l1 l2 : todo_all (l1 ++ l2) = (todo_all l1 + todo_all l2)%nat.
Proof. induction l1 as [|p l1 IH]; simpl; [done|]. rewrite IH. lia. Qed.

(** With the mutex held and nobody to release it, no goroutine moves. *)
Lemma held_for_ever_step n i :
  step i (mkSt true (replicate n Waiting)) = mkSt true (replicate n Waiting).
Proof.
  unfold step. simpl.
  destruct (replicate n Waiting !! i) as [p|] eqn:Hi; [|done].
  apply lookup_replicate in Hi as [-> _]. done.
Qed.

Lemma lock_step_holding i st :
  holding (goroutines st) = (if mu st then 1 else 0)%nat ->
  holding (goroutines (step i st)) = (if mu (step i st) then 1 else 0)%nat.
Proof.
  intros Hh. unfold step. destruct st as [m gs]. simpl in *.
  destruct (gs !! i) as [p|] eqn:Hi; [|done].
  destruct (lookup_split _ _ _ Hi) as (l1 & l2 & Hgs & Hins).
  subst gs. rewrite holding_app in Hh. simpl in Hh.
  destruct p.
  - destruct m; simpl; [rewrite holding_app; simpl; lia|].
    rewrite Hins, holding_app. simpl. lia.
  - simpl. rewrite Hins, holding_app. simpl. destruct m; lia.
  - simpl. rewrite holding_app. simpl. lia.
Qed.

Lemma lock_exec_holding sched : forall st,
  holding (goroutines st) = (if mu st then 1 else 0)%nat ->
  holding (goroutines (exec sched st)) = (if mu (exec sched st) then 1 else 0)%nat.
Proof.
  induction sched as [|i sched IH]; intros st H; [done|].
  simpl. by apply IH, lock_step_holding.
Qed.

Lemma holding_some gs :
  (0 < holding gs)%nat -> exists i, gs !! i = Some Holding.
Proof.
  induction gs as [|p gs IH]; simpl; [lia|]. intros H.
  destruct p; try (destruct IH as [i Hi]; [lia|]; by exists (S i)).
  by exists 0%nat.
Qed.

Lemma holding_none_waiting gs i p :
  holding gs = 0%nat -> gs !! i = Some p -> p <> Holding.
Proof.
  revert i. induction gs as [|q gs IH]; intros i H Hi; [done|].
  simpl in H. destruct i as [|i]; simpl in Hi.
  - inversion Hi; subst. destruct p; [done|lia|done].
  - apply (IH i); [destruct q; lia|done].
Qed.

Lemma lock_progress st :
  holding (goroutines st) = (if mu st then 1 else 0)%nat ->
  wait_returns st = false ->
  exists i, (todo_all (goroutines (step i st)) < todo_all (goroutines st))%nat.
Proof.
  intros Hh Hw. destruct (mu st) eqn:Hmu.
  - destruct (holding_some (goroutines st)) as [i Hi]; [lia|].
    exists i. unfold step. rewrite Hi. simpl.
    destruct (lookup_split _ _ _ Hi) as (l1 & l2 & Hgs & Hins).
    rewrite Hins, Hgs, !lock_todo_app. simpl. lia.
  - apply forallb_false_lookup in Hw as (i & p & Hi & Hp).
    pose proof (holding_none_waiting _ _ _ Hh Hi) as Hnh.
    destruct p; try done.
    exists i. unfold step. rewrite Hi, Hmu. simpl.
    destruct (lookup_split _ _ _ Hi) as (l1 & l2 & Hgs & Hins).
    rewrite Hins, Hgs, !lock_todo_app. simpl. lia.
Qed.

Lemma lock_can_finish : forall n st,
  (todo_all (goroutines st) <= n)%nat ->
  holding (goroutines st) = (if mu st then 1 else 0)%nat ->
  exists sched, wait_returns (exec sched st) = true.
Proof.
  induction n as [|n IH]; intros st Hn Hh.
  - destruct (wait_returns st) eqn:Hw; [by exists []|].
    destruct (lock_progress st Hh Hw) as (i & Hlt). lia.
  - destruct (wait_returns st) eqn:Hw; [by exists []|].
    destruct (lock_progress st Hh Hw) as (i & Hlt).
    destruct (IH (step i st)) as (sched & Hs); [lia|by apply lock_step_holding|].
    by exists (i :: sched).
Qed.

Lemma all_done_none_holding gs :
  forallb (fun p => match p with Done => true | _ => false end) gs = true ->
  holding gs = 0%nat.
Proof.
  induction gs as [|p gs IH]; simpl; [done|]. intros H.
  apply andb_true_iff in H as [Hp Hgs]. rewrite (IH Hgs). by destruct p.
Qed.

Lemma proper_init_holding n : holding (replicate n Waiting) = 0%nat.
Proof. induction n as [|n IH]; simpl; [done|]. exact IH. Qed.

End LockDemo_facts.

(** X6. The forgotten Unlock. In deadlockExample main has locked the mutex
    and never unlocks it: whatever the scheduler does, the goroutine stays
    in front of its Lock, so wg.Wait() never returns. The same holds for
    any number of goroutines waiting for a mutex nobody releases. *)
Theorem forgotten_unlock_deadlocks (n : nat) (sched : list nat) :
  LockDemo.exec sched LockDemo.deadlockExample = LockDemo.deadlockExample /\
  LockDemo.wait_returns (LockDemo.exec sched LockDemo.deadlockExample) = false /\
  LockDemo.exec sched (LockDemo.mkSt true (replicate n LockDemo.Waiting))
  = LockDemo.mkSt true (replicate n LockDemo.Waiting).
Proof.
  assert (forall k, LockDemo.exec sched (LockDemo.mkSt true (replicate k LockDemo.Waiting))
                    = LockDemo.mkSt true (replicate k LockDemo.Waiting)) as H.
  { intros k. induction sched as [|i sched IH]; [done|].
    simpl. by rewrite held_for_ever_step. }
  split; [exact (H 1%nat)|]. split; [|exact (H n)].
  change LockDemo.deadlockExample
    with (LockDemo.mkSt true (replicate 1 LockDemo.Waiting)).
  by rewrite H.
Qed.

(** X7. Lock and Unlock in pairs. Goroutines that each lock the mutex, work
    and unlock it (properLockingExample, TestDeadlockPrevention) never hold
    the mutex two at a time, can always all finish, whatever has happened
    so far, and leave the mutex free when wg.Wait() returns. *)
Theorem paired_locking_finishes (n : nat) (sched : list nat) :
  let st := LockDemo.exec sched (LockDemo.properLocking n) in
  LockDemo.holding (LockDemo.goroutines st) = (if LockDemo.mu st then 1 else 0)%nat /\
  (exists sched1,
      LockDemo.wait_returns
        (LockDemo.exec (sched ++ sched1) (LockDemo.properLocking n)) = true) /\
  (LockDemo.wait_returns st = false \/ LockDemo.mu st = false).
Proof.
  intros st.
  assert (LockDemo.holding (LockDemo.goroutines st)
          = (if LockDemo.mu st then 1 else 0)%nat) as Hh.
  { apply lock_exec_holding. simpl. apply proper_init_holding. }
  split; [exact Hh|]. split.
  - destruct (lock_can_finish _ st (le_n _) Hh) as (sched1 & H1).
    exists sched1. unfold LockDemo.exec in *. by rewrite fold_left_app.
  - destruct (LockDemo.wait_returns st) eqn:Hw; [right|by left].
    apply all_done_none_holding in Hw. rewrite Hw in Hh.
    by destruct (LockDemo.mu st).
Qed.

(** ** Producer and consumer on one SafeQueue *)

Section QueueDemo_facts.
Import QueueDemo.

Lemma step_Producer q x tp cg c :
  step Producer (mkSt (SafeQueue.mk false q) (x :: tp) cg c)
  = mkSt (SafeQueue.mk false (q ++ [x])) tp cg c.
Proof. reflexivity. Qed.

Lemma step_Consumer_item q x tp c :
  step Consumer (mkSt (SafeQueue.mk false (x :: q)) tp true c)
  = mkSt (SafeQueue.mk false q) tp true (c ++ [x]).
Proof. reflexivity. Qed.

Lemma step_Consumer_empty tp c :
  step Consumer (mkSt (SafeQueue.mk false []) tp true c)
  = mkSt (SafeQueue.mk false []) tp false c.
Proof. reflexivity. Qed.

Lemma queue_exec_app s1 s2 st : exec (s1 ++ s2) st = exec s2 (exec s1 st).
Proof. apply fold_left_app. Qed.

(** The lock is free between the calls, and no item appears or gets
    lost. *)
Lemma queue_step_accounting items w st :
  SafeQueue.mu (sq st) = false /\
  consumed st ++ SafeQueue.queue (sq st) ++ to_produce st = items ->
  SafeQueue.mu (sq (step w st)) = false /\
  consumed (step w st) ++ SafeQueue.queue (sq (step w st)) ++ to_produce (step w st)
  = items.
Proof.
  intros [Hmu Hacc]. destruct st as [[m q] tp cg c]. simpl in *. subst m.
  destruct w.
  - destruct tp as [|x tp]; [done|]. rewrite step_Producer. simpl.
    split; [done|]. by rewrite <- app_assoc.
  - destruct cg; [|done]. destruct q as [|x q].
    + by rewrite step_Consumer_empty.
    + rewrite step_Consumer_item. simpl. split; [done|].
      by rewrite <- app_assoc.
Qed.

Lemma producer_runs tp : forall q cg c,
  exec (repeat Producer (length tp)) (mkSt (SafeQueue.mk false q) tp cg c)
  = mkSt (SafeQueue.mk false (q ++ tp)) [] cg c.
Proof.
  induction tp as [|x tp IH]; intros q cg c.
  - simpl. by rewrite app_nil_r.
  - change (exec (repeat Producer (length (x :: tp))) ?st)
      with (exec (repeat Producer (length tp)) (step Producer st)).
    rewrite step_Producer, IH. by rewrite <- app_assoc.
Qed.

Lemma consumer_runs q : forall tp c,
  exec (repeat Consumer (S (length q))) (mkSt (SafeQueue.mk false q) tp true c)
  = mkSt (SafeQueue.mk false []) tp false (c ++ q).
Proof.
  induction q as [|x q IH]; intros tp c.
  - change (step Consumer (mkSt (SafeQueue.mk false []) tp true c)
            = mkSt (SafeQueue.mk false []) tp false (c ++ [])).
    rewrite step_Consumer_empty. by rewrite app_nil_r.
  - change (exec (repeat Consumer (S (length (x :: q)))) ?st)
      with (exec (repeat Consumer (S (length q))) (step Consumer st)).
    rewrite step_Consumer_item, IH. by rewrite <- app_assoc.
Qed.

Lemma queue_exec_accounting items sched : forall st,
  SafeQueue.mu (sq st) = false /\
  consumed st ++ SafeQueue.queue (sq st) ++ to_produce st = items ->
  SafeQueue.mu (sq (exec sched st)) = false /\
  consumed (exec sched st) ++ SafeQueue.queue (sq (exec sched st))
    ++ to_produce (exec sched st) = items.
Proof.
  induction sched as [|w sched IH]; intros st H; [exact H|].
  simpl. by apply IH, queue_step_accounting.
Qed.

(** From wherever they are, the producer can run to its end and the
    consumer after it. *)
Lemma queue_can_complete st :
  SafeQueue.mu (sq st) = false ->
  exists sched, completed (exec sched st) = true.
Proof.
  destruct st as [[m q] tp cg c]. simpl. intros ->.
  destruct cg.
  - exists (repeat Producer (length tp) ++ repeat Consumer (S (length (q ++ tp)))).
    by rewrite queue_exec_app, producer_runs, consumer_runs.
  - exists (repeat Producer (length tp)). by rewrite producer_runs.
Qed.

End QueueDemo_facts.

(** X8. TestSafeQueue, producer and consumer running side by side. In
    whatever order their calls get the lock, no item appears twice or gets
    lost: what the consumer has consumed, then what the queue holds, then
    what the producer has still to enqueue, are the items in their order.
    And both goroutines can always come to their end, so wg.Wait()
    returns. *)
Theorem TestSafeQueue_accounting (items : list Z) (sched : list QueueDemo.who) :
  let st := QueueDemo.exec sched (QueueDemo.TestSafeQueue items) in
  QueueDemo.consumed st ++ SafeQueue.queue (QueueDemo.sq st) ++ QueueDemo.to_produce st
  = items /\
  (exists sched1,
      QueueDemo.completed
        (QueueDemo.exec (sched ++ sched1) (QueueDemo.TestSafeQueue items)) = true).
Proof.
  intros st.
  destruct (queue_exec_accounting items sched (QueueDemo.TestSafeQueue items))
    as [Hmu Hacc]; [by split|].
  split; [exact Hacc|].
  destruct (queue_can_complete st Hmu) as (sched1 & H1).
  exists sched1. by rewrite queue_exec_app.
Qed.

(** X9. The consumer of TestSafeQueue leaves at the first empty Dequeue.
    When it gets the lock before the producer has enqueued anything, it
    consumes nothing and all items stay in the queue when wg.Wait()
    returns; when the producer runs first, it consumes every item, in
    order. *)
Theorem TestSafeQueue_consumer_may_leave_early (items : list Z) :
  let early := QueueDemo.exec
                 (QueueDemo.Consumer :: repeat QueueDemo.Producer (length items))
                 (QueueDemo.TestSafeQueue items) in
  let late := QueueDemo.exec
                (repeat QueueDemo.Producer (length items)
                 ++ repeat QueueDemo.Consumer (S (length items)))
                (QueueDemo.TestSafeQueue items) in
  early = QueueDemo.mkSt (SafeQueue.mk false items) [] false [] /\
  QueueDemo.completed early = true /\
  late = QueueDemo.mkSt SafeQueue.zero [] false items /\
  QueueDemo.completed late = true.
Proof.
  assert (QueueDemo.exec
            (QueueDemo.Consumer :: repeat QueueDemo.Producer (length items))
            (QueueDemo.TestSafeQueue items)
          = QueueDemo.mkSt (SafeQueue.mk false items) [] false []) as He.
  { change (QueueDemo.exec (QueueDemo.Consumer :: ?l) ?st)
      with (QueueDemo.exec l (QueueDemo.step QueueDemo.Consumer st)).
    unfold QueueDemo.TestSafeQueue, SafeQueue.zero.
    rewrite step_Consumer_empty.
    apply (producer_runs items [] false []). }
  assert (QueueDemo.exec
            (repeat QueueDemo.Producer (length items)
             ++ repeat QueueDemo.Consumer (S (length items)))
            (QueueDemo.TestSafeQueue items)
          = QueueDemo.mkSt SafeQueue.zero [] false items) as Hl.
  { rewrite queue_exec_app. unfold QueueDemo.TestSafeQueue, SafeQueue.zero.
    rewrite (producer_runs items [] true []). simpl app.
    apply (consumer_runs items [] []). }
  intros early late. subst early late. rewrite He, Hl.
  repeat split; reflexivity.
Qed.

(** ** The keyed store under Read and Write calls *)

Section StoreTrace_facts.
Import StoreTrace.

Lemma last_write_snoc key past c :
  last_write key (past ++ [c])
  = match c with
    | W k v => if String.eqb k key then Some v else last_write key past
    | R _ => last_write key past
    end.
Proof.
  induction past as [|d past IH]; simpl.
  - destruct c as [k|k v]; [done|]. by destruct (String.eqb k key).
  - rewrite IH. destruct c as [k|k v]; [done|].
    by destruct (String.eqb k key).
Qed.

Lemma run_expected calls : forall past (m : gmap string string),
  (forall k, m !! k = last_write k past) ->
  run calls (ReadHeavyStruct.mk rw_zero (Some m)) = Some (expected past calls).
Proof.
  induction calls as [|c calls IH]; intros past m Hm; [done|].
  destruct c as [key|key value].
  - change (run (R key :: calls) (ReadHeavyStruct.mk rw_zero (Some m)))
      with (option_map
              (cons (ReadHeavyStruct.map_index (Some m) key))
              (run calls (ReadHeavyStruct.mk rw_zero (Some m)))).
    rewrite (IH (past ++ [R key]) m).
    + simpl. unfold ReadHeavyStruct.map_index, ReadHeavyStruct.stored.
      by rewrite Hm.
    + intros k. by rewrite last_write_snoc.
  - change (run (W key value :: calls) (ReadHeavyStruct.mk rw_zero (Some m)))
      with (run calls (ReadHeavyStruct.mk rw_zero (Some (<[key := value]> m)))).
    rewrite (IH (past ++ [W key value])); [done|].
    intros k. rewrite last_write_snoc.
    destruct (String.eqb_spec key k) as [->|Hne].
    + by rewrite lookup_insert_eq.
    + by rewrite lookup_insert_ne.
Qed.

End StoreTrace_facts.

(** X10. The store of TestRWMutex behaves as one map. For any sequence of
    Read and Write calls on a store whose map has been made, in the order
    the lock grants them, no call panics or is left waiting, and every Read
    returns the value of the latest Write to its key with found = true, or
    the empty string with found = false when there was none. *)
Theorem store_reads_latest_write (calls : list StoreTrace.call) :
  StoreTrace.run calls ReadHeavyStruct.make = Some (StoreTrace.expected [] calls).
Proof.
  apply (run_expected calls [] ∅). intros k. apply lookup_empty.
Qed.

(** X11. Writes to different keys commute: Write(k1, v1) followed by
    Write(k2, v2) leaves the same store, with the same outcome, as the two
    calls in the other order, on any store: made, nil or locked. *)
Theorem Write_commutes (r : ReadHeavyStruct.t) (k1 v1 k2 v2 : string)
    (Hne : k1 <> k2) :
  bind (ReadHeavyStruct.Write k1 v1) (fun _ => ReadHeavyStruct.Write k2 v2) r
  = bind (ReadHeavyStruct.Write k2 v2) (fun _ => ReadHeavyStruct.Write k1 v1) r.
Proof.
  destruct r as [[w n] d]. unfold bind.
  destruct (rw_lockable (mkRW w n)) eqn:E.
  - unfold rw_lockable in E. simpl in E.
    apply andb_true_iff in E as [Hw Hn].
    apply negb_true_iff in Hw. apply Nat.eqb_eq in Hn. subst.
    destruct d as [m|].
    + fold rw_zero. rewrite !Write_idle_map. do 3 f_equal.
      by apply insert_insert_ne.
    + fold rw_zero. by rewrite !Write_idle_nil.
  - by rewrite !Write_busy.
Qed.

Lemma Write_commutes_witness :
  "foo"%string <> "bar"%string /\
  bind (ReadHeavyStruct.Write "foo" "1") (fun _ => ReadHeavyStruct.Write "bar" "2")
       ReadHeavyStruct.make
  = bind (ReadHeavyStruct.Write "bar" "2") (fun _ => ReadHeavyStruct.Write "foo" "1")
         ReadHeavyStruct.make.
Proof.
  assert ("foo"%string <> "bar"%string) as Hne by discriminate.
  split; [exact Hne|].
  exact (Write_commutes ReadHeavyStruct.make "foo" "1" "bar" "2" Hne).
Defined.

(** X12. A Write overwrites: Write(k, v1) followed by Write(k, v2) is one
    Write(k, v2), on any store; in particular writing the same value twice
    is writing it once. *)
Theorem Write_overwrites (r : ReadHeavyStruct.t) (k v1 v2 : string) :
  bind (ReadHeavyStruct.Write k v1) (fun _ => ReadHeavyStruct.Write k v2) r
  = ReadHeavyStruct.Write k v2 r.
Proof.
  destruct r as [[w n] d]. unfold bind.
  destruct (rw_lockable (mkRW w n)) eqn:E.
  - unfold rw_lockable in E. simpl in E.
    apply andb_true_iff in E as [Hw Hn].
    apply negb_true_iff in Hw. apply Nat.eqb_eq in Hn. subst.
    destruct d as [m|].
    + fold rw_zero. rewrite !Write_idle_map. do 3 f_equal.
      by apply insert_insert_eq.
    + fold rw_zero. by rewrite !Write_idle_nil.
  - by rewrite !Write_busy.
Qed.

(** X13. Every lock taken is released. Whenever Increment, Value, Enqueue,
    Dequeue, Read or Write leaves, by a return or by a panic, the lock of
    its receiver is as it was before the call: the deferred Unlock runs on
    every way out. So after the panic of a Write on a nil map the store is
    not left locked, and a Read on it returns. *)
Theorem every_lock_is_released :
  (forall c, lock_kept SafeCounter.mu SafeCounter.Increment c) /\
  (forall c, lock_kept SafeCounter.mu SafeCounter.Value c) /\
  (forall item sq, lock_kept SafeQueue.mu (SafeQueue.Enqueue item) sq) /\
  (forall sq, lock_kept SafeQueue.mu SafeQueue.Dequeue sq) /\
  (forall key r, lock_kept ReadHeavyStruct.mu (ReadHeavyStruct.Read key) r) /\
  (forall key value r,
      lock_kept ReadHeavyStruct.mu (ReadHeavyStruct.Write key value) r) /\
  (forall key value key', exists r,
      state_after (ReadHeavyStruct.Write key value ReadHeavyStruct.zero) = Some r /\
      ReadHeavyStruct.Read key' r = Returns (EmptyString, false) r).
Proof.
  unfold lock_kept.
  split; [intros [[] v]; reflexivity|].
  split; [intros [[] v]; reflexivity|].
  split; [intros item [[] q]; reflexivity|].
  split; [intros [[] [|x q]]; reflexivity|].
  split; [intros key [[[] n] d]; reflexivity|].
  split; [|intros; exists ReadHeavyStruct.zero; split; reflexivity].
  intros key value [[w n] d].
  destruct (rw_lockable (mkRW w n)) eqn:E.
  - unfold rw_lockable in E. simpl in E.
    apply andb_true_iff in E as [Hw Hn].
    apply negb_true_iff in Hw. apply Nat.eqb_eq in Hn. subst.
    destruct d; reflexivity.
  - by rewrite Write_busy.
Qed.

(** ** More on generatorWithBoring *)

Section Generator_more.

Variable rng : Type.
Variable rand_Intn : Z -> rng -> Z * rng.

Lemma turns_messages_wrap msg k : forall (a : Z) (r : rng),
  map fst (turns rng rand_Intn msg k (mkGen (wrap_int a) r))
  = map (fun i => Sprintf_s_d msg (wrap_int (a + Z.of_nat i))) (seq 0 k).
Proof.
  induction k as [|k IH]; intros a r; [reflexivity|].
  simpl. unfold iteration. simpl.
  destruct (rand_Intn 1000 r) as [n r']. simpl. f_equal.
  - by rewrite Z.add_0_r.
  - rewrite wrap_int_add, IH. rewrite <- fmap_S_seq.
    rewrite <- list_fmap_compose. apply list_fmap_ext.
    intros _ i _. simpl. do 2 f_equal. lia.
Qed.

End Generator_more.

Lemma Sprintf_s_d_inj msg a b : Sprintf_s_d msg a = Sprintf_s_d msg b -> a = b.
Proof.
  unfold Sprintf_s_d. intros H.
  do 2 apply String.app_inj in H.
  assert (forall z, NilZero.int_of_string (NilZero.string_of_int (Z.to_int z))
                    = Some (Z.to_int z)) as Hparse.
  { intros z. apply NilZero.isi; destruct z; simpl; try discriminate;
      intros [= E]; by apply DecimalPos.Unsigned.to_uint_nonnil in E. }
  apply DecimalZ.to_int_inj.
  pose proof (Hparse a) as Ha. rewrite H, Hparse in Ha. by injection Ha.
Qed.

Lemma wrap_int_inj a b :
  0 <= a < 2 ^ 64 -> 0 <= b < 2 ^ 64 -> wrap_int a = wrap_int b -> a = b.
Proof.
  unfold wrap_int. intros Ha Hb H.
  assert ((a + 2 ^ 63) mod 2 ^ 64 = (b + 2 ^ 63) mod 2 ^ 64) as E by lia.
  clear H. revert E. Z.div_mod_to_equations. lia.
Qed.

(** X14. The sequence number of the generator is a Go [int] and wraps:
    for every k, whatever the random source, message number i is the label,
    a space and the decimal form of i wrapped to 64 bits; the message that
    follows number 9223372036854775807 carries -9223372036854775808. *)
Theorem generator_number_wraps (rng : Type) (rand_Intn : Z -> rng -> Z * rng)
    (msg : string) (seed : rng) (k : nat) :
  messages rng rand_Intn msg seed k
  = map (fun i => Sprintf_s_d msg (wrap_int (Z.of_nat i))) (seq 0 k) /\
  Sprintf_s_d msg (wrap_int int_max) = msg +:+ " 9223372036854775807" /\
  Sprintf_s_d msg (wrap_int (int_max + 1)) = msg +:+ " -9223372036854775808".
Proof.
  split; [|split; reflexivity].
  unfold messages, generatorWithBoring.
  apply (turns_messages_wrap rng rand_Intn msg k 0 seed).
Qed.

(** X15. No two of the first 2^64 messages of a generator are equal, so a
    message tells its place in the stream. *)
Theorem generator_messages_distinct (rng : Type) (rand_Intn : Z -> rng -> Z * rng)
    (msg : string) (seed : rng) (k : nat)
    (Hrange : Z.of_nat k <= 2 ^ 64) :
  NoDup (messages rng rand_Intn msg seed k).
Proof.
  unfold messages, generatorWithBoring.
  pose proof (turns_messages_wrap rng rand_Intn msg k 0 seed) as E.
  change (wrap_int 0) with 0 in E. rewrite E. clear E.
  apply NoDup_fmap_2_strong; [|apply NoDup_seq].
  intros i i' Hi Hi' E.
  apply list_elem_of_In, in_seq in Hi. apply list_elem_of_In, in_seq in Hi'.
  apply Sprintf_s_d_inj, wrap_int_inj in E; lia.
Qed.

Lemma generator_messages_distinct_witness :
  Z.of_nat 5 <= 2 ^ 64 /\ NoDup (messages Z lcg_Intn "Joe" 42 5).
Proof.
  assert (Z.of_nat 5 <= 2 ^ 64) as Hr by (vm_compute; discriminate).
  split; [exact Hr|].
  exact (generator_messages_distinct Z lcg_Intn "Joe" 42 5 Hr).
Defined.

(** ** More on fanIn *)

Section FanIn_more.
Import FanIn.

Lemma two_steps_F1 x p1 c1 in2 h2 o :
  exec [F1; F1] (mkSt (mkIn (x :: p1) c1) in2 None h2 o)
  = mkSt (mkIn p1 c1) in2 None h2 (o ++ [x]).
Proof. reflexivity. Qed.

Lemma two_steps_F2 x p2 c2 in1 h1 o :
  exec [F2; F2] (mkSt in1 (mkIn (x :: p2) c2) h1 None o)
  = mkSt in1 (mkIn p2 c2) h1 None (o ++ [x]).
Proof. reflexivity. Qed.

Lemma two_steps_F1_closed in2 h2 o :
  exec [F1; F1] (mkSt (mkIn [] true) in2 None h2 o)
  = mkSt (mkIn [] true) in2 None h2 (o ++ [EmptyString]).
Proof. reflexivity. Qed.

(** Each interleaving of what the inputs hold can be what comes out. *)
Lemma any_interleaving p1 p2 l :
  Merge p1 p2 l ->
  forall c1 c2 o, exists sched,
    exec sched (mkSt (mkIn p1 c1) (mkIn p2 c2) None None o)
    = mkSt (mkIn [] c1) (mkIn [] c2) None None (o ++ l).
Proof.
  induction 1 as [|x l1 l2 l H IH|x l1 l2 l H IH]; intros c1 c2 o.
  - exists []. simpl. by rewrite app_nil_r.
  - destruct (IH c1 c2 (o ++ [x])) as (sched & Hs).
    exists ([F1; F1] ++ sched).
    rewrite fanIn_exec_app, two_steps_F1, Hs. by rewrite <- app_assoc.
  - destruct (IH c1 c2 (o ++ [x])) as (sched & Hs).
    exists ([F2; F2] ++ sched).
    rewrite fanIn_exec_app, two_steps_F2, Hs. by rewrite <- app_assoc.
Qed.

(** The first goroutine alone empties its input, ... *)
Lemma F1_drains p1 : forall c1 in2 h2 o,
  exec (concat (replicate (length p1) [F1; F1])) (mkSt (mkIn p1 c1) in2 None h2 o)
  = mkSt (mkIn [] c1) in2 None h2 (o ++ p1).
Proof.
  induction p1 as [|x p1 IH]; intros c1 in2 h2 o.
  - simpl. by rewrite app_nil_r.
  - change (concat (replicate (length (x :: p1)) [F1; F1]))
      with ([F1; F1] ++ concat (replicate (length p1) [F1; F1])).
    rewrite fanIn_exec_app, two_steps_F1, IH. by rewrite <- app_assoc.
Qed.

(** ... and on a closed input it goes on, with an empty string each
    time round. *)
Lemma F1_spins n : forall in2 h2 o,
  exec (concat (replicate n [F1; F1])) (mkSt (mkIn [] true) in2 None h2 o)
  = mkSt (mkIn [] true) in2 None h2 (o ++ replicate n EmptyString).
Proof.
  induction n as [|n IH]; intros in2 h2 o.
  - simpl. by rewrite app_nil_r.
  - change (concat (replicate (S n) [F1; F1]))
      with ([F1; F1] ++ concat (replicate n [F1; F1])).
    rewrite fanIn_exec_app, two_steps_F1_closed, IH. by rewrite <- app_assoc.
Qed.

End FanIn_more.

(** X16. fanIn keeps what it forwards in order, at every moment. For
    sources that leave their channels open and whatever the goroutines have
    done so far, what has come out of the merged channel interleaves a
    prefix of the first source's messages with a prefix of the second's:
    nothing made up, nothing twice, nothing out of its source's order. *)
Theorem fanIn_output_interleaves_prefixes (l1 l2 : list string)
    (sched : list FanIn.forwarder) :
  exists a1 a2,
    a1 `prefix_of` l1 /\ a2 `prefix_of` l2 /\
    FanIn.Merge a1 a2
      (FanIn.merged (FanIn.silent_after l1) (FanIn.silent_after l2) sched).
Proof.
  destruct (fanIn_exec_invariant l1 l2 sched _ (fanIn_invariant l1 l2))
    as (a1 & a2 & Hm & H1 & H2 & _).
  exists a1, a2. split; [by eexists|]. split; [by eexists|]. exact Hm.
Qed.

(** X17. fanIn fixes no order between its inputs: every interleaving of
    the messages of the two sources is what comes out under some
    schedule. *)
Theorem fanIn_any_interleaving_happens (in1 in2 : FanIn.input) (l : list string)
    (Hl : FanIn.Merge (FanIn.pending in1) (FanIn.pending in2) l) :
  exists sched, FanIn.merged in1 in2 sched = l.
Proof.
  destruct in1 as [p1 c1], in2 as [p2 c2]. simpl in Hl.
  destruct (any_interleaving p1 p2 l Hl c1 c2 []) as (sched & Hs).
  exists sched. unfold FanIn.merged, FanIn.fanIn. by rewrite Hs.
Qed.

Lemma fanIn_any_interleaving_happens_witness :
  FanIn.Merge ["Joe 0"; "Joe 1"]%string ["Ann 0"]%string
    ["Joe 0"; "Ann 0"; "Joe 1"]%string /\
  exists sched,
    FanIn.merged (FanIn.silent_after ["Joe 0"; "Joe 1"]%string)
      (FanIn.silent_after ["Ann 0"]%string) sched
    = ["Joe 0"; "Ann 0"; "Joe 1"]%string.
Proof.
  assert (FanIn.Merge ["Joe 0"; "Joe 1"]%string ["Ann 0"]%string
            ["Joe 0"; "Ann 0"; "Joe 1"]%string) as Hm
    by (apply FanIn.Merge_left, FanIn.Merge_right, FanIn.Merge_left, FanIn.Merge_nil).
  split; [exact Hm|].
  exact (fanIn_any_interleaving_happens
           (FanIn.silent_after ["Joe 0"; "Joe 1"]%string)
           (FanIn.silent_after ["Ann 0"]%string) _ Hm).
Defined.

(** X18. fanIn does not notice a closed input. When the first source has
    closed its channel after its messages, the first goroutine alone, the
    second never getting a turn, forwards these messages and then, for any
    n, n empty strings: the merged output never ends. *)
Theorem fanIn_closed_input_spins (l1 : list string) (in2 : FanIn.input) (n : nat) :
  FanIn.merged (FanIn.closed_after l1) in2
    (concat (replicate (length l1 + n) [FanIn.F1; FanIn.F1]))
  = l1 ++ replicate n EmptyString.
Proof.
  unfold FanIn.merged, FanIn.fanIn, FanIn.closed_after.
  rewrite replicate_add, concat_app, fanIn_exec_app.
  rewrite F1_drains, F1_spins. reflexivity.
Qed.

Lemma prefix_of_numbering {A} (f : nat -> A) k (a rest : list A) :
  f <$> seq 0 k = a ++ rest ->
  a = f <$> seq 0 (length a) /\ (length a <= k)%nat.
Proof.
  intros H.
  assert (length a <= k)%nat as Hle.
  { apply (f_equal length) in H.
    rewrite length_fmap, length_seq, length_app in H. lia. }
  split; [|exact Hle].
  rewrite <- (take_app_length a rest) at 1.
  rewrite <- H, <- fmap_take, take_seq. by rewrite Nat.min_l.
Qed.

(** X19. fanIn on two generators, as [main] builds it. With the first k
    messages of a generator labelled msg1 and of one labelled msg2 as
    inputs (k within the [int] range), what comes out of the merged channel
    is at every moment an interleaving of msg1 0, msg1 1, ..., msg1 (n1-1)
    with msg2 0, ..., msg2 (n2-1) for some n1 and n2: each label counts up
    from 0 without a gap, whatever the random delays and the schedule. *)
Theorem fanIn_of_generators (rng : Type) (rand_Intn : Z -> rng -> Z * rng)
    (msg1 msg2 : string) (seed1 seed2 : rng) (k : nat)
    (sched : list FanIn.forwarder)
    (Hrange : Z.of_nat k <= int_max + 1) :
  exists n1 n2,
    (n1 <= k)%nat /\ (n2 <= k)%nat /\
    FanIn.Merge (map (numbered msg1) (seq 0 n1)) (map (numbered msg2) (seq 0 n2))
      (FanIn.merged
         (FanIn.silent_after (messages rng rand_Intn msg1 seed1 k))
         (FanIn.silent_after (messages rng rand_Intn msg2 seed2 k))
         sched).
Proof.
  set (l1 := messages rng rand_Intn msg1 seed1 k).
  set (l2 := messages rng rand_Intn msg2 seed2 k).
  assert (l1 = numbered msg1 <$> seq 0 k) as E1
    by (apply (turns_messages rng rand_Intn msg1 k 0 seed1); simpl; lia).
  assert (l2 = numbered msg2 <$> seq 0 k) as E2
    by (apply (turns_messages rng rand_Intn msg2 k 0 seed2); simpl; lia).
  destruct (fanIn_exec_invariant l1 l2 sched _ (fanIn_invariant l1 l2))
    as (a1 & a2 & Hm & H1 & H2 & _).
  rewrite E1 in H1. rewrite E2 in H2.
  apply prefix_of_numbering in H1 as [Ha1 Hn1].
  apply prefix_of_numbering in H2 as [Ha2 Hn2].
  exists (length a1), (length a2). split; [exact Hn1|]. split; [exact Hn2|].
  rewrite Ha1, Ha2 in Hm. exact Hm.
Qed.

Lemma fanIn_of_generators_witness :
  Z.of_nat 3 <= int_max + 1 /\
  exists n1 n2,
    (n1 <= 3)%nat /\ (n2 <= 3)%nat /\
    FanIn.Merge (map (numbered "Joe") (seq 0 n1)) (map (numbered "Ann") (seq 0 n2))
      (FanIn.merged
         (FanIn.silent_after (messages Z lcg_Intn "Joe" 1 3))
         (FanIn.silent_after (messages Z lcg_Intn "Ann" 2 3))
         [FanIn.F1; FanIn.F2; FanIn.F2; FanIn.F1; FanIn.F1]).
Proof.
  assert (Z.of_nat 3 <= int_max + 1) as Hr by (vm_compute; discriminate).
  split; [exact Hr|].
  exact (fanIn_of_generators Z lcg_Intn "Joe" "Ann" 1 2 3
           [FanIn.F1; FanIn.F2; FanIn.F2; FanIn.F1; FanIn.F1] Hr).
Defined.
